(** * Deep merge of JavaScript value graphs: a model of [src/index.ts]

    The development embeds [deepMerge] and its inner closure
    [internalDeepMerge] over an explicit heap of objects.  Object identity
    ([===] on objects, the keys of the two [WeakMap]s) is the heap location;
    cyclic and shared structure is therefore ordinary data of the model. *)

From Stdlib Require Import ZArith NArith Ascii String.
From stdpp Require Import gmap strings list.

(** ** Values and heap objects *)

Abbreviation loc := nat.

(** A JavaScript value as the merge sees it.  Everything that is not an
    object is a scalar; objects are references into the heap.  [VFun]
    stands for function and symbol values, which have an identity but are
    never decomposed.  Numbers are integers here: the merge only passes
    them on and compares them with [===]. *)
Inductive value :=
| VUndefined
| VNull
| VBool (b : bool)
| VNum (n : Z)
| VStr (s : string)
| VFun (id : nat)
| VRef (l : loc).

Global Instance value_eq_dec : EqDecision value.
Proof. solve_decision. Defined.

(** The own enumerable string-keyed data properties of an object, in the
    order [Object.keys] reports them.  Accessors inherited from the
    prototype (the key [__proto__]) are outside the model. *)
Abbreviation props := (list (string * value)).

(** Arrays, plain objects (prototype [Object.prototype] or [null]) and
    every other object (dates, regular expressions, class instances). *)
Inductive obj :=
| OArray (elems : list value)
| OPlain (ps : props)
| OOpaque (descr : string).

Abbreviation heap := (list obj).

(** ** Property keys and their enumeration order

    [Object.keys] lists array-index keys first, in ascending numeric
    order, and then the other string keys in the order of their creation
    (ECMAScript, OrdinaryOwnPropertyKeys).  An array index is the canonical
    decimal spelling of an integer in [0, 2^32 - 2]. *)

Definition digit_of (c : ascii) : option N :=
  let n := N_of_ascii c in
  if ((48 <=? n) && (n <=? 57))%N then Some (n - 48)%N else None.

Fixpoint parse_digits (s : string) (acc : N) : option N :=
  match s with
  | EmptyString => Some acc
  | String c s' =>
      match digit_of c with
      | Some d => parse_digits s' (10 * acc + d)%N
      | None => None
      end
  end.

Definition array_index (s : string) : option N :=
  match s with
  | EmptyString => None
  | String c s' =>
      if decide (c = "0"%char)
      then (if decide (s' = EmptyString) then Some 0%N else None)
      else match parse_digits s 0 with
           | Some n => if (n <? 4294967295)%N then Some n else None
           | None => None
           end
  end.

Fixpoint prop_lookup (k : string) (ps : props) : option value :=
  match ps with
  | [] => None
  | (k', v) :: r => if decide (k = k') then Some v else prop_lookup k r
  end.

(** Writing a key that is not an array index: an existing property keeps
    its slot, a new one goes to the end. *)
Fixpoint set_named (k : string) (v : value) (ps : props) : props :=
  match ps with
  | [] => [(k, v)]
  | (k', v') :: r =>
      if decide (k = k') then (k, v) :: r else (k', v') :: set_named k v r
  end.

(** Writing the array index [n]: an existing property keeps its slot, a
    new one is placed after the smaller indices and before everything
    else. *)
Fixpoint set_indexed (n : N) (k : string) (v : value) (ps : props) : props :=
  match ps with
  | [] => [(k, v)]
  | (k', v') :: r =>
      if decide (k = k') then (k, v) :: r
      else match array_index k' with
           | Some m =>
               if (m <? n)%N then (k', v') :: set_indexed n k v r
               else (k, v) :: (k', v') :: r
           | None => (k, v) :: (k', v') :: r
           end
  end.

Definition prop_set (k : string) (v : value) (ps : props) : props :=
  match array_index k with
  | Some n => set_indexed n k v ps
  | None => set_named k v ps
  end.

Definition prop_keys (ps : props) : list string := ps.*1.

(** ** The collaborators from [@se-oss/object] *)

(** Modelled from the spec: [isObject] of the package [@se-oss/object],
    whose source is not part of the repository.  The spec describes it as
    the predicate "is this a structured value eligible for recursion",
    which separates maps, sequences and opaque objects from scalars and
    the absent value. *)
Definition isObject (v : value) : bool :=
  match v with VRef _ => true | _ => false end.

(** Modelled from the spec: [isPlainObject] of the package
    [@se-oss/object]: "is this specifically a plain keyed Map", which
    separates maps from sequences and opaque objects among the structured
    values.  A reference that resolves to nothing is of no recognised
    shape and is classified like an opaque object. *)
Definition isPlainObject (h : heap) (v : value) : bool :=
  match v with
  | VRef l => match h !! l with Some (OPlain _) => true | _ => false end
  | _ => false
  end.

(** [Array.isArray]. *)
Definition isArray (h : heap) (v : value) : bool :=
  match v with
  | VRef l => match h !! l with Some (OArray _) => true | _ => false end
  | _ => false
  end.

(** ** Reading and writing the heap *)

(** [v.length] of an array. *)
Definition arr_length (h : heap) (v : value) : nat :=
  match v with
  | VRef l => match h !! l with Some (OArray es) => length es | _ => 0 end
  | _ => 0
  end.

(** [v[i]]: out of range reads give [undefined]. *)
Definition get_index (h : heap) (v : value) (i : nat) : value :=
  match v with
  | VRef l =>
      match h !! l with
      | Some (OArray es) => default VUndefined (es !! i)
      | _ => VUndefined
      end
  | _ => VUndefined
  end.

(** [Object.keys(v)]. *)
Definition keys (h : heap) (v : value) : list string :=
  match v with
  | VRef l => match h !! l with Some (OPlain ps) => prop_keys ps | _ => [] end
  | _ => []
  end.

(** [v[k]] for an own key; a missing key reads as [undefined]. *)
Definition get_prop (h : heap) (v : value) (k : string) : value :=
  match v with
  | VRef l =>
      match h !! l with
      | Some (OPlain ps) => default VUndefined (prop_lookup k ps)
      | _ => VUndefined
      end
  | _ => VUndefined
  end.

(** [Object.prototype.hasOwnProperty.call(v, k)]. *)
Definition hasOwn (h : heap) (v : value) (k : string) : bool :=
  match v with
  | VRef l =>
      match h !! l with
      | Some (OPlain ps) => bool_decide (is_Some (prop_lookup k ps))
      | _ => false
      end
  | _ => false
  end.

(** [arr.push(v)] on the array at [l]. *)
Definition push (l : loc) (v : value) (h : heap) : heap :=
  match h !! l with
  | Some (OArray es) => <[l := OArray (es ++ [v])]> h
  | _ => h
  end.

(** [o[k] = v] on the plain object at [l]. *)
Definition set_prop (l : loc) (k : string) (v : value) (h : heap) : heap :=
  match h !! l with
  | Some (OPlain ps) => <[l := OPlain (prop_set k v ps)]> h
  | _ => h
  end.

(** ** The state of one top-level call

    The heap together with the two identity-keyed tables that [deepMerge]
    creates: [cloneMap : WeakMap<object, object>] and
    [pairMap : WeakMap<object, WeakMap<object, object>>]. *)
Record state := mkState {
  st_heap : heap;
  cloneMap : gmap loc loc;
  pairMap : gmap loc (gmap loc loc)
}.

Definition with_heap (f : heap → heap) (st : state) : state :=
  mkState (f (st_heap st)) (cloneMap st) (pairMap st).

(** [const x = []] and [const x = {}]: a new object at the next free
    location. *)
Definition alloc (o : obj) (st : state) : loc * state :=
  (length (st_heap st), with_heap (λ h, h ++ [o]) st).

Definition cloneMap_set (k c : loc) (st : state) : state :=
  mkState (st_heap st) (<[k := c]> (cloneMap st)) (pairMap st).

(** [getPair]: [pairMap.get(a)?.get(b)]. *)
Definition getPair (a b : loc) (st : state) : option loc :=
  match pairMap st !! a with
  | Some inner => inner !! b
  | None => None
  end.

(** [setPair]: the inner table is created on first use. *)
Definition setPair (a b out : loc) (st : state) : state :=
  let inner := match pairMap st !! a with
               | Some inner => inner
               | None => ∅
               end in
  mkState (st_heap st) (cloneMap st) (<[a := <[b := out]> inner]> (pairMap st)).

(** ** The merge *)

(** A recursive call of [internalDeepMerge]: [None] means that the fuel of
    the model ran out. *)
Definition call := value → value → state → option (value * state).

Section Loops.
Variable rec : call.

(** [for (i = 0, l = src.length; i < l; i++)
      newArr.push(internalDeepMerge(undefined, src[i]))], entered at
    index [i] with [n] iterations left. *)
Fixpoint pushLoop (newArr : loc) (src : value) (i n : nat) (st : state)
  : option state :=
  match n with
  | 0 => Some st
  | S n' =>
      match rec VUndefined (get_index (st_heap st) src i) st with
      | Some (v, st1) =>
          pushLoop newArr src (S i) n' (with_heap (push newArr v) st1)
      | None => None
      end
  end.

(** [for k of keys: result[k] = internalDeepMerge(undefined, src[k])]. *)
Fixpoint cloneKeysLoop (result : loc) (src : value) (ks : list string)
  (st : state) : option state :=
  match ks with
  | [] => Some st
  | k :: ks' =>
      match rec VUndefined (get_prop (st_heap st) src k) st with
      | Some (v, st1) =>
          cloneKeysLoop result src ks' (with_heap (set_prop result k v) st1)
      | None => None
      end
  end.

(** The loop over [keys2] of the plain-object merge. *)
Fixpoint mergeKeysLoop (output : loc) (obj1 obj2 : value)
  (ks : list string) (st : state) : option state :=
  match ks with
  | [] => Some st
  | key :: ks' =>
      let h := st_heap st in
      let r :=
        if hasOwn h obj1 key && isObject (get_prop h obj1 key)
           && isObject (get_prop h obj2 key)
        then rec (get_prop h obj1 key) (get_prop h obj2 key) st
        else rec VUndefined (get_prop h obj2 key) st in
      match r with
      | Some (v, st1) =>
          mergeKeysLoop output obj1 obj2 ks'
            (with_heap (set_prop output key v) st1)
      | None => None
      end
  end.
End Loops.

(** [for k of keys1: output[k] = obj1[k]]. *)
Fixpoint copyKeysLoop (output : loc) (obj1 : value) (ks : list string)
  (h : heap) : heap :=
  match ks with
  | [] => h
  | k :: ks' => copyKeysLoop output obj1 ks' (set_prop output k (get_prop h obj1 k) h)
  end.

(** [for k of keys1: if (output[k] === obj1) output[k] = output]. *)
Fixpoint fixSelfLoop (output : loc) (obj1 : value) (ks : list string)
  (h : heap) : heap :=
  match ks with
  | [] => h
  | k :: ks' =>
      fixSelfLoop output obj1 ks'
        (if decide (get_prop h (VRef output) k = obj1)
         then set_prop output k (VRef output) h
         else h)
  end.



Section Merge.
(** The flag [mergeArrays] that [deepMerge] takes out of its options
    ([mergeArrays_of]); the closure [internalDeepMerge] reads it. *)
Variable mergeArrays : bool.

(** The body of [internalDeepMerge]; [rec] stands for the function
    itself at its recursive calls.  The two tests [!isObject(obj2)] and
    [!isObject(obj1)] are the matches on [VRef], which also give the
    locations that key the tables. *)
Definition mergeBody (rec : call) (obj1 obj2 : value) (st : state)
  : option (value * state) :=
  (* identity fast-path *)
  if decide (obj1 = obj2) then Some (obj1, st)
  else match obj2 with
  | VRef l2 =>
    match obj1 with
    | VRef l1 =>
      (* both objects *)
      match getPair l1 l2 st with
      | Some existing => Some (VRef existing, st)
      | None =>
        if isArray (st_heap st) obj2 then
          if negb (isArray (st_heap st) obj1) then
            let '(newArr, st) := alloc (OArray []) st in
            let st := setPair l1 l2 newArr st in
            st ← pushLoop rec newArr obj2 0 (arr_length (st_heap st) obj2) st;
            Some (VRef newArr, st)
          else
            let '(newArr, st) := alloc (OArray []) st in
            let st := setPair l1 l2 newArr st in
            if mergeArrays then
              st ← pushLoop rec newArr obj1 0 (arr_length (st_heap st) obj1) st;
              st ← pushLoop rec newArr obj2 0 (arr_length (st_heap st) obj2) st;
              Some (VRef newArr, st)
            else
              st ← pushLoop rec newArr obj2 0 (arr_length (st_heap st) obj2) st;
              Some (VRef newArr, st)
        else if isArray (st_heap st) obj1 && isPlainObject (st_heap st) obj2 then
          let '(result, st) := alloc (OPlain []) st in
          let st := setPair l1 l2 result st in
          st ← cloneKeysLoop rec result obj2 (keys (st_heap st) obj2) st;
          Some (VRef result, st)
        else if negb (isPlainObject (st_heap st) obj1)
                || negb (isPlainObject (st_heap st) obj2) then
          Some (obj2, st)
        else
          (* plain-object merge *)
          let '(output, st) := alloc (OPlain []) st in
          let keys1 := keys (st_heap st) obj1 in
          let st := with_heap (copyKeysLoop output obj1 keys1) st in
          let st := setPair l1 l2 output st in
          let st := with_heap (fixSelfLoop output obj1 keys1) st in
          let keys2 := keys (st_heap st) obj2 in
          st ← mergeKeysLoop rec output obj1 obj2 keys2 st;
          Some (VRef output, st)
      end
    | _ =>
      (* !isObject(obj1): no target counterpart, clone *)
      match cloneMap st !! l2 with
      | Some c => Some (VRef c, st)
      | None =>
        if isArray (st_heap st) obj2 then
          let '(newArr, st) := alloc (OArray []) st in
          let st := cloneMap_set l2 newArr st in
          st ← pushLoop rec newArr obj2 0 (arr_length (st_heap st) obj2) st;
          Some (VRef newArr, st)
        else if isPlainObject (st_heap st) obj2 then
          let '(result, st) := alloc (OPlain []) st in
          let st := cloneMap_set l2 result st in
          st ← cloneKeysLoop rec result obj2 (keys (st_heap st) obj2) st;
          Some (VRef result, st)
        else Some (obj2, st)
      end
    end
  | _ => (* !isObject(obj2) *) Some (obj2, st)
  end.

(** [internalDeepMerge], with the depth of the recursion bounded by
    [fuel]. *)
Fixpoint internalDeepMerge (fuel : nat) : call :=
  match fuel with
  | 0 => λ _ _ _, None
  | S fuel' => mergeBody (internalDeepMerge fuel')
  end.

(** [deepMerge(target, source, {mergeArrays})] on the heap [h]: the two
    tables start empty and are dropped at the end. *)
Definition deepMerge (fuel : nat) (target source : value) (h : heap)
  : option (value * heap) :=
  let st := mkState h ∅ ∅ in
  if negb (isObject target) && negb (isObject source) then
    let '(l, st) := alloc (OPlain []) st in Some (VRef l, st_heap st)
  else if negb (isObject target) then
    '(v, st) ← internalDeepMerge fuel VUndefined source st; Some (v, st_heap st)
  else if negb (isObject source) then
    '(v, st) ← internalDeepMerge fuel VUndefined target st; Some (v, st_heap st)
  else
    '(v, st) ← internalDeepMerge fuel target source st; Some (v, st_heap st).
End Merge.


(** ** Shapes, well-formed heaps and the invariants of a call *)

Inductive kind := KArray | KPlain | KOpaque.

Global Instance kind_eq_dec : EqDecision kind.
Proof. solve_decision. Defined.

Definition kind_of (o : obj) : kind :=
  match o with
  | OArray _ => KArray
  | OPlain _ => KPlain
  | OOpaque _ => KOpaque
  end.

(** A value is closed below [n] when it is a scalar or refers to one of
    the first [n] heap cells. *)
Definition val_closed (n : nat) (v : value) : Prop :=
  match v with VRef l => l < n | _ => True end.

Global Instance val_closed_dec n v : Decision (val_closed n v).
Proof. destruct v; simpl; apply _. Defined.

Definition obj_closed (n : nat) (o : obj) : Prop :=
  match o with
  | OArray es => Forall (val_closed n) es
  | OPlain ps => Forall (val_closed n) ps.*2
  | OOpaque _ => True
  end.

Global Instance obj_closed_dec n o : Decision (obj_closed n o).
Proof. destruct o; simpl; apply _. Defined.

(** The keys of an object are pairwise distinct. *)
Definition obj_keys_nodup (o : obj) : Prop :=
  match o with OPlain ps => NoDup (prop_keys ps) | _ => True end.

Global Instance obj_keys_nodup_dec o : Decision (obj_keys_nodup o).
Proof. destruct o; simpl; apply _. Defined.

(** A well-formed value graph: no reference leaves the heap and no object
    has a key twice. *)
Definition wf_heap (h : heap) : Prop :=
  Forall (λ o, obj_closed (length h) o ∧ obj_keys_nodup o) h.

Global Instance wf_heap_dec h : Decision (wf_heap h).
Proof. unfold wf_heap. apply _. Defined.

(** The tables only grow. *)
Definition tables_grow (st st' : state) : Prop :=
  (∀ l c, cloneMap st !! l = Some c → cloneMap st' !! l = Some c) ∧
  (∀ a b o, getPair a b st = Some o → getPair a b st' = Some o).

(** Between [st] and [st'] no cell that existed in [st] was written,
    except possibly the cell [own]. *)
Definition frame (own : loc) (st st' : state) : Prop :=
  length (st_heap st) ≤ length (st_heap st') ∧
  (∀ l, l < length (st_heap st) → l ≠ own →
        st_heap st' !! l = st_heap st !! l) ∧
  tables_grow st st'.

(** No cell that existed in [st] was written at all. *)
Definition extends (st st' : state) : Prop :=
  frame (length (st_heap st)) st st'.

Section Invariant.
(** The heap on which [deepMerge] was called. *)
Variable h0 : heap.

(** A table entry [src ↦ out]: [out] was allocated by this call and has
    the shape of [src], an array or a plain object. *)
Definition table_ok (h : heap) (src out : loc) : Prop :=
  length h0 ≤ out ∧
  ∃ o o', h !! src = Some o ∧ h !! out = Some o' ∧
          kind_of o' = kind_of o ∧ kind_of o ≠ KOpaque.

Record inv (st : state) : Prop := mkInv {
  inv_input : ∀ l, l < length h0 → st_heap st !! l = h0 !! l;
  inv_len : length h0 ≤ length (st_heap st);
  inv_clone : ∀ l c, cloneMap st !! l = Some c → table_ok (st_heap st) l c;
  inv_pair : ∀ a b o, getPair a b st = Some o → table_ok (st_heap st) b o
}.

(** What a recursive call is relied upon to do. *)
Definition call_ok (rec : call) : Prop :=
  ∀ obj1 obj2 st v st',
    inv st → val_closed (length h0) obj1 → val_closed (length h0) obj2 →
    rec obj1 obj2 st = Some (v, st') →
    inv st' ∧ extends st st'.

(** [v] is what [rec] returned for the arguments [x1], [x2] in some
    state of this call that satisfies [P]. *)
Definition returned (P : state → Prop) (rec : call) (x1 x2 v : value)
  : Prop :=
  ∃ s s', inv s ∧ P s ∧ rec x1 x2 s = Some (v, s').
End Invariant.

(** The target-side argument of the call for key [k] in the plain-object
    merge. *)
Definition merge_target (h : heap) (obj1 obj2 : value) (k : string) : value :=
  if hasOwn h obj1 k && isObject (get_prop h obj1 k)
     && isObject (get_prop h obj2 k)
  then get_prop h obj1 k else VUndefined.

(** Writing a list of bindings in order. *)
Definition set_all (kvs : list (string * value)) (ps : props) : props :=
  foldl (λ ps kv, prop_set kv.1 kv.2 ps) ps kvs.

(** The number of table entries that a call on a heap of size [n] can
    still create. *)
Definition unmarked (n : nat) (st : state) : nat :=
  length (filter (λ l, cloneMap st !! l = None) (seq 0 n)) +
  length (filter (λ p, getPair p.1 p.2 st = None)
            (list_prod (seq 0 n) (seq 0 n))).

(** ** Vocabulary of the proofs *)

(** [h'] differs from [h] at most in the contents of the cell [own],
    whose shape is kept. *)
Definition touch (own : loc) (h h' : heap) : Prop :=
  length h' = length h ∧
  (∀ l, l ≠ own → h' !! l = h !! l) ∧
  (∀ o, h !! own = Some o → ∃ o', h' !! own = Some o' ∧ kind_of o' = kind_of o).

(** The properties that the loop [output[k] = obj1[k]] writes. *)
Definition copy_props (h : heap) (obj1 : value) (ks : list string)
  (ps : props) : props :=
  set_all ((λ k, (k, get_prop h obj1 k)) <$> ks) ps.

(** The properties after the self-reference fix-up. *)
Definition fix_props (output : loc) (obj1 : value) (ks : list string)
  (ps : props) : props :=
  foldl (λ ps k, if decide (default VUndefined (prop_lookup k ps) = obj1)
                 then prop_set k (VRef output) ps else ps) ps ks.


(** The contents of the output of a plain-object merge before the loop
    over the source's keys. *)
Definition merged_base (h0 : heap) (output : loc) (obj1 : value) : props :=
  fix_props output obj1 (keys h0 obj1)
    (copy_props h0 obj1 (keys h0 obj1) []).

(** The table entries that the current call has made. *)
Definition cloned_at (l2 out : loc) (s : state) : Prop :=
  cloneMap s !! l2 = Some out.

Definition paired_at (l1 l2 out : loc) (s : state) : Prop :=
  getPair l1 l2 s = Some out.

(** The elements that the array branch pushes, in order. *)
Definition pushed (h0 : heap) (mergeArrays : bool) (l1 l2 : loc)
  : list value :=
  (if mergeArrays && isArray h0 (VRef l1)
   then get_index h0 (VRef l1) <$> seq 0 (arr_length h0 (VRef l1))
   else [])
  ++ (get_index h0 (VRef l2) <$> seq 0 (arr_length h0 (VRef l2))).



Ltac solve_decidable := refine (bool_decide_unpack _ _); vm_compute; exact I.

(** The elements of an array. *)
Definition elems (h : heap) (v : value) : list value :=
  match v with
  | VRef l => match h !! l with Some (OArray es) => es | _ => [] end
  | _ => []
  end.

(** ** Containment between nodes *)



(** ** The results that the tables remember *)


(** The pairs of objects whose merge builds a new object and enters it
    in [pairMap]: the source is an array, or the target is an array or a
    plain object. *)
Definition pair_kept (h0 : heap) (a b : loc) : bool :=
  isArray h0 (VRef b) || isArray h0 (VRef a) || isPlainObject h0 (VRef a).

(** Every entry of [pairMap] is for such a pair. *)
Definition pair_shape (h0 : heap) (st : state) : Prop :=
  ∀ a b o, getPair a b st = Some o → pair_kept h0 a b = true.

(** [v] is the answer to [internalDeepMerge(x1, x2)] that the state [s]
    holds: the source itself where the call returns it (a scalar, an
    opaque object, the same object on both sides, an opaque target), the
    entry of [cloneMap] for a source without a target counterpart, and the
    entry of [pairMap] otherwise. *)
Definition memo (h0 : heap) (x1 x2 : value) (s : state) (v : value) : Prop :=
  match x2 with
  | VRef l2 =>
      if isArray h0 x2 || isPlainObject h0 x2 then
        match x1 with
        | VRef l1 =>
            if decide (l1 = l2) then v = x2
            else if pair_kept h0 l1 l2
                 then ∃ c, v = VRef c ∧ getPair l1 l2 s = Some c
                 else v = x2
        | _ => ∃ c, v = VRef c ∧ cloneMap s !! l2 = Some c
        end
      else v = x2
  | _ => v = x2
  end.

(** A recursive call leaves its answer in the tables. *)
Definition call_memo (h0 : heap) (rec : call) : Prop :=
  ∀ obj1 obj2 st v st',
    inv h0 st → pair_shape h0 st →
    val_closed (length h0) obj1 → val_closed (length h0) obj2 →
    rec obj1 obj2 st = Some (v, st') →
    pair_shape h0 st' ∧ memo h0 obj1 obj2 st' v.

(** ** Deep copies *)


(** The clone [c] of the source node [l] has all its contents: every
    element, or the value under every key, is the answer that the state
    holds for the clone of the source's. *)
Definition filled (h0 : heap) (st : state) (l c : loc) : Prop :=
  (isArray h0 (VRef l) = true →
   ∃ vs, st_heap st !! c = Some (OArray vs) ∧
         Forall2 (λ x y, memo h0 VUndefined x st y) (elems h0 (VRef l)) vs) ∧
  (isPlainObject h0 (VRef l) = true →
   ∃ vs, st_heap st !! c
         = Some (OPlain (set_all (zip (keys h0 (VRef l)) vs) [])) ∧
         Forall2 (λ k y, memo h0 VUndefined (get_prop h0 (VRef l) k) st y)
           (keys h0 (VRef l)) vs).

(** The merge [c] of the pair of the target node [a] and the source node
    [b] has all its contents, by the branch that built it: an array for a
    source array, a clone of the source's properties for a target array,
    and the merged properties for two plain objects. *)
Definition filled_pair (h0 : heap) (mergeArrays : bool) (st : state)
  (a b c : loc) : Prop :=
  (isArray h0 (VRef b) = true →
   ∃ vs, st_heap st !! c = Some (OArray vs) ∧
         Forall2 (λ x y, memo h0 VUndefined x st y)
           (pushed h0 mergeArrays a b) vs) ∧
  (isArray h0 (VRef a) = true → isPlainObject h0 (VRef b) = true →
   ∃ vs, st_heap st !! c
         = Some (OPlain (set_all (zip (keys h0 (VRef b)) vs) [])) ∧
         Forall2 (λ k y, memo h0 VUndefined (get_prop h0 (VRef b) k) st y)
           (keys h0 (VRef b)) vs) ∧
  (isPlainObject h0 (VRef a) = true → isPlainObject h0 (VRef b) = true →
   ∃ vs, st_heap st !! c
         = Some (OPlain (set_all (zip (keys h0 (VRef b)) vs)
                           (merged_base h0 c (VRef a)))) ∧
         Forall2 (λ k y, memo h0 (merge_target h0 (VRef a) (VRef b) k)
                           (get_prop h0 (VRef b) k) st y)
           (keys h0 (VRef b)) vs).

(** Every object in the tables is filled, except the ones that enclosing
    calls are still filling. *)
Definition tables_done (h0 : heap) (mergeArrays : bool) (busy : list loc)
  (st : state) : Prop :=
  (∀ l c, cloneMap st !! l = Some c → c ∉ busy → filled h0 st l c) ∧
  (∀ a b c, getPair a b st = Some c → c ∉ busy →
            filled_pair h0 mergeArrays st a b c).

(** The objects entered in the tables between [st] and [st'] were
    allocated after [st]. *)
Definition tables_fresh (st st' : state) : Prop :=
  (∀ l c, cloneMap st' !! l = Some c →
          cloneMap st !! l = Some c ∨ length (st_heap st) ≤ c) ∧
  (∀ a b c, getPair a b st' = Some c →
            getPair a b st = Some c ∨ length (st_heap st) ≤ c).

(** No two source nodes have the same clone. *)
Definition clones_inj (st : state) : Prop :=
  ∀ l l' c, cloneMap st !! l = Some c → cloneMap st !! l' = Some c → l = l'.

(** What the run from [st] to [st'] does to the tables, while the
    objects in [own] are being filled.  The last part counts: every new
    object takes one of the table entries that are still free. *)
Definition step_done (h0 : heap) (mergeArrays : bool) (own : list loc)
  (st st' : state) : Prop :=
  tables_fresh st st' ∧
  (∀ busy, (∀ o, o ∈ own → o ∈ busy) →
           tables_done h0 mergeArrays busy st →
           tables_done h0 mergeArrays busy st') ∧
  (clones_inj st → clones_inj st') ∧
  length (st_heap st') + unmarked (length h0) st'
  ≤ length (st_heap st) + unmarked (length h0) st.

(** A recursive call fills the objects that it makes. *)
Definition call_done (h0 : heap) (mergeArrays : bool) (rec : call) : Prop :=
  ∀ obj1 obj2 st v st',
    inv h0 st → pair_shape h0 st →
    val_closed (length h0) obj1 → val_closed (length h0) obj2 →
    rec obj1 obj2 st = Some (v, st') →
    step_done h0 mergeArrays [] st st'.



(** ** Concrete heaps used in the examples *)

Module Examples.



(** Two roots that refer to each other: [t = {s: s, me: t}] at 0,
    [s = {t: t, arr: a}] at 1 and [a = [a, t]] at 2. *)
Definition mutual_heap : heap :=
  [ OPlain [("s", VRef 1); ("me", VRef 0)];
    OPlain [("t", VRef 0); ("arr", VRef 2)];
    OArray [VRef 2; VRef 0] ].



(** [const a = [1,2]], [{arr: a}] at 0 and [{arr: a}] at 1: both roots
    hold the same array, which is at 2. *)
Definition shared_arr_heap : heap :=
  [ OPlain [("arr", VRef 2)]; OPlain [("arr", VRef 2)];
    OArray [VNum 1; VNum 2] ].

(** [{d: d1, n: 1}] and [{d: d2, n: "x"}] with two dates. *)
Definition date_heap : heap :=
  [ OPlain [("d", VRef 1); ("n", VNum 1)]; OOpaque "Date(2020-01-01)";
    OPlain [("d", VRef 3); ("n", VStr "x")]; OOpaque "Date(2021-01-01)" ].





End Examples.

(** * Properties *)

(** ** Property lists *)

Lemma prop_lookup_set_named k k' v ps :
  prop_lookup k (set_named k' v ps)
  = if decide (k = k') then Some v else prop_lookup k ps.
Proof.
  induction ps as [|[k1 v1] ps IH]; simpl.
  - repeat case_decide; congruence.
  - repeat (case_decide; simpl); try congruence.
Qed.

Lemma prop_lookup_set_indexed n k k' v ps :
  prop_lookup k (set_indexed n k' v ps)
  = if decide (k = k') then Some v else prop_lookup k ps.
Proof.
  induction ps as [|[k1 v1] ps IH]; simpl.
  - repeat case_decide; congruence.
  - destruct (decide (k' = k1)); simpl.
    + repeat (case_decide; simpl); congruence.
    + destruct (array_index k1) as [m|]; [destruct (m <? n)%N|]; simpl;
        repeat (case_decide; simpl); congruence.
Qed.

Lemma prop_lookup_prop_set k k' v ps :
  prop_lookup k (prop_set k' v ps)
  = if decide (k = k') then Some v else prop_lookup k ps.
Proof.
  unfold prop_set. destruct (array_index k').
  - apply prop_lookup_set_indexed.
  - apply prop_lookup_set_named.
Qed.

Lemma prop_lookup_Some_keys k v ps :
  prop_lookup k ps = Some v → k ∈ prop_keys ps.
Proof.
  induction ps as [|[k1 v1] ps IH]; simpl; [done|].
  case_decide; intros ?; subst; [left | right; auto].
Qed.

Lemma prop_lookup_None_keys k ps :
  prop_lookup k ps = None ↔ k ∉ prop_keys ps.
Proof.
  induction ps as [|[k1 v1] ps IH]; simpl.
  - split; [intros _; apply not_elem_of_nil | done].
  - rewrite not_elem_of_cons. case_decide; subst; [split; [done | tauto] | tauto].
Qed.

Lemma prop_lookup_values k v ps : prop_lookup k ps = Some v → v ∈ ps.*2.
Proof.
  induction ps as [|[k1 v1] ps IH]; simpl; [done|].
  case_decide; intros ?; simplify_eq; [left | right; auto].
Qed.



(** ** Heap cells under [push] and [set_prop] *)

Lemma touch_refl own h : touch own h h.
Proof. split_and!; eauto. Qed.

Lemma touch_insert own h o o' :
  h !! own = Some o → kind_of o' = kind_of o → touch own h (<[own := o']> h).
Proof.
  intros Ho Hk. split_and!.
  - apply length_insert.
  - intros l Hne. by apply list_lookup_insert_ne.
  - intros o1 Ho1. exists o'. split; [|congruence].
    apply list_lookup_insert_eq. by eapply lookup_lt_Some.
Qed.

Lemma push_touch l v h : touch l h (push l v h).
Proof.
  unfold push. destruct (h !! l) as [[es|ps|d]|] eqn:E; try apply touch_refl.
  by eapply touch_insert.
Qed.

Lemma set_prop_touch l k v h : touch l h (set_prop l k v h).
Proof.
  unfold set_prop. destruct (h !! l) as [[es|ps|d]|] eqn:E; try apply touch_refl.
  by eapply touch_insert.
Qed.

Lemma push_lookup_eq l v h es :
  h !! l = Some (OArray es) → push l v h !! l = Some (OArray (es ++ [v])).
Proof.
  intros E. unfold push. rewrite E.
  apply list_lookup_insert_eq. by eapply lookup_lt_Some.
Qed.

Lemma set_prop_lookup_eq l k v h ps :
  h !! l = Some (OPlain ps) →
  set_prop l k v h !! l = Some (OPlain (prop_set k v ps)).
Proof.
  intros E. unfold set_prop. rewrite E.
  apply list_lookup_insert_eq. by eapply lookup_lt_Some.
Qed.

Lemma touch_kind own h h' l o :
  touch own h h' → h !! l = Some o →
  ∃ o', h' !! l = Some o' ∧ kind_of o' = kind_of o.
Proof.
  intros (_ & Hne & Hown) Hl. destruct (decide (l = own)) as [->|Hd].
  - by apply Hown.
  - exists o. by rewrite Hne.
Qed.

(** ** The tables *)

Lemma getPair_setPair a' b' a b o st :
  getPair a' b' (setPair a b o st)
  = if decide (a' = a ∧ b' = b) then Some o else getPair a' b' st.
Proof.
  unfold getPair, setPair; simpl.
  destruct (decide (a' = a)) as [->|Ha].
  - rewrite lookup_insert_eq.
    destruct (decide (b' = b)) as [->|Hb].
    + rewrite lookup_insert_eq. by rewrite decide_True.
    + rewrite lookup_insert_ne by done. rewrite decide_False by tauto.
      by destruct (pairMap st !! a).
  - rewrite lookup_insert_ne by done. by rewrite decide_False by tauto.
Qed.

Lemma tables_grow_refl st : tables_grow st st.
Proof. by split. Qed.

Lemma tables_grow_trans st1 st2 st3 :
  tables_grow st1 st2 → tables_grow st2 st3 → tables_grow st1 st3.
Proof. intros [??] [??]. split; eauto. Qed.

Lemma tables_grow_with_heap f st : tables_grow st (with_heap f st).
Proof. by split. Qed.

Lemma tables_grow_cloneMap_set l c st :
  cloneMap st !! l = None → tables_grow st (cloneMap_set l c st).
Proof.
  intros Hn. split; [|done]. intros l' c' H. simpl.
  rewrite lookup_insert_ne; [done | congruence].
Qed.

Lemma tables_grow_setPair a b o st :
  getPair a b st = None → tables_grow st (setPair a b o st).
Proof.
  intros Hn. split; [done|]. intros a' b' o' H.
  rewrite getPair_setPair. case_decide as Hd; [|done].
  destruct Hd as [-> ->]. congruence.
Qed.

(** ** Frames *)

Lemma frame_refl own st : frame own st st.
Proof. split_and!; auto using tables_grow_refl. Qed.

Lemma frame_trans own st1 st2 st3 :
  frame own st1 st2 → frame own st2 st3 → frame own st1 st3.
Proof.
  intros (L1 & H1 & G1) (L2 & H2 & G2). split_and!.
  - lia.
  - intros l Hl Hne. rewrite H2 by (done || lia). by apply H1.
  - by eapply tables_grow_trans.
Qed.

Lemma extends_frame own st st' : extends st st' → frame own st st'.
Proof.
  intros (L & H & G). split_and!; [done| |done].
  intros l Hl _. apply H; lia.
Qed.

Lemma extends_refl st : extends st st.
Proof. apply frame_refl. Qed.

Lemma extends_trans st1 st2 st3 :
  extends st1 st2 → extends st2 st3 → extends st1 st3.
Proof.
  intros (L1 & H1 & G1) (L2 & H2 & G2). split_and!.
  - lia.
  - intros l Hl Hne. rewrite H2 by lia. by apply H1.
  - by eapply tables_grow_trans.
Qed.

(** A call that allocates its output at the end of the heap and then only
    writes to it leaves every older cell alone. *)
Lemma extends_alloc_frame st st1 st' :
  extends st st1 → frame (length (st_heap st)) st1 st' → extends st st'.
Proof.
  intros (L1 & H1 & G1) (L2 & H2 & G2). split_and!.
  - lia.
  - intros l Hl _. rewrite H2 by lia. apply H1; lia.
  - by eapply tables_grow_trans.
Qed.

Lemma extends_alloc o st : extends st (alloc o st).2.
Proof.
  split_and!; simpl.
  - rewrite length_app. lia.
  - intros l Hl _. by apply lookup_app_l.
  - apply tables_grow_with_heap.
Qed.

Lemma frame_touch own f st :
  touch own (st_heap st) (f (st_heap st)) → frame own st (with_heap f st).
Proof.
  intros (L & Hne & _). split_and!; simpl.
  - lia.
  - intros l _ Hd. by apply Hne.
  - apply tables_grow_with_heap.
Qed.

Lemma frame_tables own st st' :
  st_heap st' = st_heap st → tables_grow st st' → frame own st st'.
Proof. intros E G. split_and!; rewrite ?E; auto. Qed.

(** ** The invariant under the primitive steps *)

Section InvariantSteps.
Variable h0 : heap.
Local Abbreviation N := (length h0).
Local Abbreviation inv := (inv h0).
Local Abbreviation table_ok := (table_ok h0).

Lemma table_ok_touch own h h' src out :
  touch own h h' → table_ok h src out → table_ok h' src out.
Proof.
  intros T (Hle & o & o' & Hs & Ho & Hk & Hn). split; [done|].
  destruct (touch_kind _ _ _ _ _ T Hs) as (o1 & ? & K1).
  destruct (touch_kind _ _ _ _ _ T Ho) as (o2 & ? & K2).
  exists o1, o2. split_and!; [done | done | congruence | congruence].
Qed.

Lemma table_ok_app h x src out :
  table_ok h src out → table_ok (h ++ [x]) src out.
Proof.
  intros (Hle & o & o' & Hs & Ho & Hk & Hn). split; [done|].
  exists o, o'. split_and!; try done; by apply lookup_app_l_Some.
Qed.

Lemma inv_touch own f st :
  inv st → N ≤ own → touch own (st_heap st) (f (st_heap st)) →
  inv (with_heap f st).
Proof.
  intros [Hi Hl Hc Hp] Hown T. pose proof T as (L & Hne & _).
  split; simpl.
  - intros l Hlt. rewrite Hne by lia. by apply Hi.
  - lia.
  - intros l c H. eapply table_ok_touch; eauto.
  - intros a b o H. eapply table_ok_touch; eauto.
Qed.

Lemma inv_alloc o st : inv st → inv (alloc o st).2.
Proof.
  intros [Hi Hl Hc Hp]. split; simpl.
  - intros l Hlt. rewrite lookup_app_l by lia. by apply Hi.
  - rewrite length_app. lia.
  - intros l c H. apply table_ok_app; eauto.
  - intros a b o' H. apply table_ok_app; eauto.
Qed.

Lemma inv_cloneMap_set l c st :
  inv st → table_ok (st_heap st) l c → inv (cloneMap_set l c st).
Proof.
  intros [Hi Hl Hc Hp] T. split; simpl; auto.
  intros l' c'. rewrite lookup_insert. case_decide; [|by auto].
  intros ?; simplify_eq. done.
Qed.

Lemma inv_setPair a b o st :
  inv st → table_ok (st_heap st) b o → inv (setPair a b o st).
Proof.
  intros [Hi Hl Hc Hp] T. split; simpl; auto.
  intros a' b' o'. rewrite getPair_setPair.
  case_decide as Hd; [|intros H; exact (Hp _ _ _ H)].
  destruct Hd as [-> ->]. intros ?; simplify_eq. done.
Qed.
End InvariantSteps.

(** ** Reading the input through a later heap *)

Section Reads.
Variable h0 : heap.
Local Abbreviation N := (length h0).
Variable h : heap.
Hypothesis Hagree : ∀ l, l < N → h !! l = h0 !! l.

Lemma isArray_stable v : val_closed N v → isArray h v = isArray h0 v.
Proof. destruct v; simpl; try done. intros ?. by rewrite Hagree. Qed.

Lemma isPlainObject_stable v :
  val_closed N v → isPlainObject h v = isPlainObject h0 v.
Proof. destruct v; simpl; try done. intros ?. by rewrite Hagree. Qed.

Lemma arr_length_stable v : val_closed N v → arr_length h v = arr_length h0 v.
Proof. destruct v; simpl; try done. intros ?. by rewrite Hagree. Qed.

Lemma get_index_stable v i :
  val_closed N v → get_index h v i = get_index h0 v i.
Proof. destruct v; simpl; try done. intros ?. by rewrite Hagree. Qed.

Lemma keys_stable v : val_closed N v → keys h v = keys h0 v.
Proof. destruct v; simpl; try done. intros ?. by rewrite Hagree. Qed.

Lemma get_prop_stable v k :
  val_closed N v → get_prop h v k = get_prop h0 v k.
Proof. destruct v; simpl; try done. intros ?. by rewrite Hagree. Qed.

Lemma hasOwn_stable v k : val_closed N v → hasOwn h v k = hasOwn h0 v k.
Proof. destruct v; simpl; try done. intros ?. by rewrite Hagree. Qed.

Lemma merge_target_stable v1 v2 k :
  val_closed N v1 → val_closed N v2 →
  merge_target h v1 v2 k = merge_target h0 v1 v2 k.
Proof.
  intros H1 H2. unfold merge_target.
  by rewrite hasOwn_stable, !get_prop_stable.
Qed.
End Reads.

Section Closed.
Variable h0 : heap.
Local Abbreviation N := (length h0).
Hypothesis Hwf : wf_heap h0.

Lemma wf_lookup l o :
  h0 !! l = Some o → obj_closed N o ∧ obj_keys_nodup o.
Proof.
  intros Hl. unfold wf_heap in Hwf. rewrite Forall_lookup in Hwf.
  by apply (Hwf l o).
Qed.

Lemma get_index_closed v i : val_closed N (get_index h0 v i).
Proof.
  destruct v as [| | | | | |l]; simpl; try done.
  destruct (h0 !! l) as [[es|ps|d]|] eqn:E; simpl; try done.
  destruct (es !! i) as [x|] eqn:Ei; simpl; [|done].
  apply wf_lookup in E as [Hc _]. simpl in Hc.
  rewrite Forall_lookup in Hc. by apply (Hc i x).
Qed.

Lemma get_prop_closed v k : val_closed N (get_prop h0 v k).
Proof.
  destruct v as [| | | | | |l]; simpl; try done.
  destruct (h0 !! l) as [[es|ps|d]|] eqn:E; simpl; try done.
  destruct (prop_lookup k ps) as [x|] eqn:Ek; simpl; [|done].
  apply wf_lookup in E as [Hc _]. simpl in Hc.
  rewrite Forall_forall in Hc. apply Hc. by eapply prop_lookup_values.
Qed.

Lemma merge_target_closed v1 v2 k : val_closed N (merge_target h0 v1 v2 k).
Proof.
  unfold merge_target. case_match; [apply get_prop_closed | done].
Qed.

Lemma keys_nodup v : NoDup (keys h0 v).
Proof.
  destruct v as [| | | | | |l]; simpl; try apply NoDup_nil_2.
  destruct (h0 !! l) as [[es|ps|d]|] eqn:E; simpl; try apply NoDup_nil_2.
  by apply wf_lookup in E as [_ Hn].
Qed.
End Closed.

(** ** The loops, given that the recursive calls behave *)

Lemma mergeKeysLoop_cons rec output obj1 obj2 k ks st :
  mergeKeysLoop rec output obj1 obj2 (k :: ks) st
  = match rec (merge_target (st_heap st) obj1 obj2 k)
                (get_prop (st_heap st) obj2 k) st with
    | Some (v, st1) =>
        mergeKeysLoop rec output obj1 obj2 ks
          (with_heap (set_prop output k v) st1)
    | None => None
    end.
Proof.
  simpl. unfold merge_target.
  by destruct (hasOwn _ _ _ && isObject _ && isObject _).
Qed.

Lemma cloneKeysLoop_mergeKeysLoop rec result src ks st :
  cloneKeysLoop rec result src ks st
  = mergeKeysLoop rec result VUndefined src ks st.
Proof.
  revert st. induction ks as [|k ks IH]; intros st; simpl; [done|].
  destruct (rec _ _ st) as [[v st1]|]; [apply IH | done].
Qed.

Section LoopSpecs.
Variable h0 : heap.
Local Abbreviation N := (length h0).
Hypothesis Hwf : wf_heap h0.
Variable rec : call.
Hypothesis Hrec : call_ok h0 rec.

Lemma returned_weaken (P Q : state → Prop) x1 x2 v :
  (∀ s, P s → Q s) → returned h0 P rec x1 x2 v → returned h0 Q rec x1 x2 v.
Proof. intros HPQ (s & s' & ? & ? & ?). exists s, s'. auto. Qed.

Lemma pushLoop_ok newArr src n :
  N ≤ newArr → val_closed N src →
  ∀ i st st' es,
    inv h0 st → st_heap st !! newArr = Some (OArray es) →
    pushLoop rec newArr src i n st = Some st' →
    inv h0 st' ∧ frame newArr st st' ∧
    ∃ vs, st_heap st' !! newArr = Some (OArray (es ++ vs)) ∧
          Forall2 (returned h0 (tables_grow st) rec VUndefined)
            (get_index h0 src <$> seq i n) vs.
Proof.
  intros Hnew Hsrc. induction n as [|n IH]; intros i st st' es Hinv Hes Hrun.
  - simpl in Hrun. simplify_eq. split_and!; [done | apply frame_refl |].
    exists []. rewrite app_nil_r. split; [done | constructor].
  - simpl in Hrun.
    destruct (rec VUndefined _ st) as [[v st1]|] eqn:Hcall; [|done].
    rewrite (get_index_stable h0) in Hcall by (apply Hinv || done).
    destruct (Hrec VUndefined _ _ _ _ Hinv I (get_index_closed h0 Hwf src i) Hcall)
      as [Hinv1 Hext1].
    assert (st_heap st1 !! newArr = Some (OArray es)) as Hes1.
    { destruct Hext1 as (_ & Hsame & _). rewrite Hsame; [done| |].
      - by eapply lookup_lt_Some.
      - apply lookup_lt_Some in Hes. lia. }
    pose proof (push_touch newArr v (st_heap st1)) as T.
    pose proof (inv_touch h0 newArr (push newArr v) st1 Hinv1 Hnew T) as Hinv2.
    eapply IH in Hrun as (Hinv' & Hfr & vs & Hvs & Hall); [|done|].
    2:{ simpl. by apply push_lookup_eq. }
    split_and!; [done| |].
    + eapply frame_trans; [by apply extends_frame|].
      eapply frame_trans; [by apply frame_touch | done].
    + exists (v :: vs). split; [by rewrite <-(assoc_L (++)) in Hvs|].
      simpl. constructor.
      * exists st, st1. split_and!; [done | apply tables_grow_refl | done].
      * eapply Forall2_impl; [exact Hall|]. intros x y.
        apply returned_weaken. intros s Hs.
        eapply tables_grow_trans; [|exact Hs].
        eapply tables_grow_trans; [apply Hext1 | apply tables_grow_with_heap].
Qed.

Lemma mergeKeysLoop_ok output obj1 obj2 ks :
  N ≤ output → val_closed N obj1 → val_closed N obj2 →
  ∀ st st' ps,
    inv h0 st → st_heap st !! output = Some (OPlain ps) →
    mergeKeysLoop rec output obj1 obj2 ks st = Some st' →
    inv h0 st' ∧ frame output st st' ∧
    ∃ vs, st_heap st' !! output = Some (OPlain (set_all (zip ks vs) ps)) ∧
          Forall2 (λ k v, returned h0 (tables_grow st) rec
                            (merge_target h0 obj1 obj2 k)
                            (get_prop h0 obj2 k) v) ks vs.
Proof.
  intros Hout H1 H2. induction ks as [|k ks IH]; intros st st' ps Hinv Hps Hrun.
  - simpl in Hrun. simplify_eq. split_and!; [done | apply frame_refl |].
    exists []. split; [done | constructor].
  - rewrite mergeKeysLoop_cons in Hrun.
    destruct (rec _ _ st) as [[v st1]|] eqn:Hcall; [|done].
    rewrite (merge_target_stable h0), (get_prop_stable h0) in Hcall
      by (apply Hinv || done).
    destruct (Hrec _ _ _ _ _ Hinv (merge_target_closed h0 Hwf obj1 obj2 k)
                (get_prop_closed h0 Hwf obj2 k) Hcall) as [Hinv1 Hext1].
    assert (st_heap st1 !! output = Some (OPlain ps)) as Hps1.
    { destruct Hext1 as (_ & Hsame & _). rewrite Hsame; [done| |].
      - by eapply lookup_lt_Some.
      - apply lookup_lt_Some in Hps. lia. }
    pose proof (set_prop_touch output k v (st_heap st1)) as T.
    pose proof (inv_touch h0 output (set_prop output k v) st1 Hinv1 Hout T)
      as Hinv2.
    eapply IH in Hrun as (Hinv' & Hfr & vs & Hvs & Hall); [|done|].
    2:{ simpl. by apply set_prop_lookup_eq. }
    split_and!; [done| |].
    + eapply frame_trans; [by apply extends_frame|].
      eapply frame_trans; [by apply frame_touch | done].
    + exists (v :: vs). split; [done|].
      constructor.
      * exists st, st1. split_and!; [done | apply tables_grow_refl | done].
      * eapply Forall2_impl; [exact Hall|]. intros x y.
        apply returned_weaken. intros s Hs.
        eapply tables_grow_trans; [|exact Hs].
        eapply tables_grow_trans; [apply Hext1 | apply tables_grow_with_heap].
Qed.

Lemma cloneKeysLoop_ok result src ks :
  N ≤ result → val_closed N src →
  ∀ st st' ps,
    inv h0 st → st_heap st !! result = Some (OPlain ps) →
    cloneKeysLoop rec result src ks st = Some st' →
    inv h0 st' ∧ frame result st st' ∧
    ∃ vs, st_heap st' !! result = Some (OPlain (set_all (zip ks vs) ps)) ∧
          Forall2 (λ k v, returned h0 (tables_grow st) rec VUndefined
                            (get_prop h0 src k) v) ks vs.
Proof.
  intros Hres Hsrc st st' ps Hinv Hps Hrun.
  rewrite cloneKeysLoop_mergeKeysLoop in Hrun.
  by eapply (mergeKeysLoop_ok result VUndefined src ks) in Hrun.
Qed.
End LoopSpecs.

(** ** The copy of the target's keys and the self-reference fix-up *)

Lemma touch_trans own h1 h2 h3 :
  touch own h1 h2 → touch own h2 h3 → touch own h1 h3.
Proof.
  intros (L1 & N1 & K1) (L2 & N2 & K2). split_and!.
  - congruence.
  - intros l Hne. rewrite N2 by done. by apply N1.
  - intros o Ho. destruct (K1 o Ho) as (o1 & Ho1 & E1).
    destruct (K2 o1 Ho1) as (o2 & Ho2 & E2). exists o2. split; congruence.
Qed.

Lemma get_prop_touch own h h' v k :
  touch own h h' → v ≠ VRef own → get_prop h' v k = get_prop h v k.
Proof.
  intros (_ & Hne & _) Hv. destruct v as [| | | | | |l]; simpl; try done.
  rewrite Hne; [done | congruence].
Qed.

Lemma copyKeysLoop_spec output obj1 ks :
  obj1 ≠ VRef output →
  ∀ h ps, h !! output = Some (OPlain ps) →
    touch output h (copyKeysLoop output obj1 ks h) ∧
    copyKeysLoop output obj1 ks h !! output
    = Some (OPlain (copy_props h obj1 ks ps)).
Proof.
  intros Hne. induction ks as [|k ks IH]; intros h ps Hps; simpl.
  - split; [apply touch_refl | done].
  - pose proof (set_prop_touch output k (get_prop h obj1 k) h) as T.
    destruct (IH _ _ (set_prop_lookup_eq _ k (get_prop h obj1 k) _ _ Hps))
      as [T' E].
    split; [by eapply touch_trans|]. rewrite E. do 2 f_equal.
    unfold copy_props; simpl. f_equal. apply list_fmap_ext.
    intros i k' _. f_equal. by eapply get_prop_touch.
Qed.

Lemma fixSelfLoop_spec output obj1 ks :
  ∀ h ps, h !! output = Some (OPlain ps) →
    touch output h (fixSelfLoop output obj1 ks h) ∧
    fixSelfLoop output obj1 ks h !! output
    = Some (OPlain (fix_props output obj1 ks ps)).
Proof.
  induction ks as [|k ks IH]; intros h ps Hps; cbn [fixSelfLoop fix_props foldl].
  - split; [apply touch_refl | done].
  - assert (get_prop h (VRef output) k = default VUndefined (prop_lookup k ps))
      as -> by (simpl; by rewrite Hps).
    destruct (decide (_ = obj1)).
    + pose proof (set_prop_touch output k (VRef output) h) as T.
      destruct (IH _ _ (set_prop_lookup_eq _ k (VRef output) _ _ Hps))
        as [T' E].
      split; [by eapply touch_trans | done].
    + by apply IH.
Qed.

Lemma isArray_true h l :
  isArray h (VRef l) = true → ∃ es, h !! l = Some (OArray es).
Proof. simpl. destruct (h !! l) as [[]|]; naive_solver. Qed.

Lemma isPlainObject_true h l :
  isPlainObject h (VRef l) = true → ∃ ps, h !! l = Some (OPlain ps).
Proof. simpl. destruct (h !! l) as [[]|]; naive_solver. Qed.

Lemma isObject_false_ne v l : isObject v = false → v ≠ VRef l.
Proof. by destruct v. Qed.

Lemma isObject_true v : isObject v = true ↔ ∃ l, v = VRef l.
Proof. destruct v; split; try done; try (by intros [? ?]); eauto. Qed.

(** ** One call of the body *)

Section Body.
Variable h0 : heap.
Local Abbreviation N := (length h0).
Hypothesis Hwf : wf_heap h0.
Variable mergeArrays : bool.
Variable rec : call.
Hypothesis Hrec : call_ok h0 rec.

(** The common start of the allocating branches of the clone path. *)
Lemma alloc_clone_step st l2 o o2 :
  inv h0 st → cloneMap st !! l2 = None →
  st_heap st !! l2 = Some o2 → kind_of o = kind_of o2 →
  kind_of o2 ≠ KOpaque →
  let st1 := cloneMap_set l2 (length (st_heap st)) (alloc o st).2 in
  inv h0 st1 ∧ extends st st1 ∧
  st_heap st1 !! length (st_heap st) = Some o.
Proof.
  intros Hinv Hnone Ho2 Hk Hno st1.
  assert (st_heap st1 !! length (st_heap st) = Some o) as Hnew.
  { simpl. rewrite lookup_app_r by lia. by rewrite Nat.sub_diag. }
  split_and!; [|  |done].
  - apply inv_cloneMap_set; [by apply inv_alloc|].
    split; [apply Hinv|]. exists o2, o. split_and!; try done.
    simpl. by apply lookup_app_l_Some.
  - eapply extends_trans; [apply (extends_alloc o)|].
    apply frame_tables; [done|]. by apply tables_grow_cloneMap_set.
Qed.

Lemma alloc_pair_step st l1 l2 o o2 :
  inv h0 st → getPair l1 l2 st = None →
  st_heap st !! l2 = Some o2 → kind_of o = kind_of o2 →
  kind_of o2 ≠ KOpaque →
  let st1 := setPair l1 l2 (length (st_heap st)) (alloc o st).2 in
  inv h0 st1 ∧ extends st st1 ∧
  st_heap st1 !! length (st_heap st) = Some o.
Proof.
  intros Hinv Hnone Ho2 Hk Hno st1.
  assert (st_heap st1 !! length (st_heap st) = Some o) as Hnew.
  { simpl. rewrite lookup_app_r by lia. by rewrite Nat.sub_diag. }
  split_and!; [|  |done].
  - apply inv_setPair; [by apply inv_alloc|].
    split; [apply Hinv|]. exists o2, o. split_and!; try done.
    simpl. by apply lookup_app_l_Some.
  - eapply extends_trans; [apply (extends_alloc o)|].
    apply frame_tables; [done|]. by apply tables_grow_setPair.
Qed.

Lemma cloned_at_grow l2 out o st s :
  tables_grow (cloneMap_set l2 out (alloc o st).2) s → cloned_at l2 out s.
Proof. intros [Hc _]. apply Hc. simpl. apply lookup_insert_eq. Qed.

Lemma paired_at_grow l1 l2 out st s :
  tables_grow (setPair l1 l2 out st) s → paired_at l1 l2 out s.
Proof.
  intros [_ Hp]. apply Hp. by rewrite getPair_setPair, decide_True.
Qed.

(** The body on a source object without a target counterpart. *)
Lemma mergeBody_clone obj1 l2 st :
  isObject obj1 = false →
  mergeBody mergeArrays rec obj1 (VRef l2) st
  = mergeBody mergeArrays rec VUndefined (VRef l2) st.
Proof. by destruct obj1. Qed.

Lemma body_clone_array l2 st v st' :
  inv h0 st → l2 < N → cloneMap st !! l2 = None →
  isArray h0 (VRef l2) = true →
  mergeBody mergeArrays rec VUndefined (VRef l2) st = Some (v, st') →
  v = VRef (length (st_heap st)) ∧ inv h0 st' ∧ extends st st' ∧
  ∃ vs, st_heap st' !! length (st_heap st) = Some (OArray vs) ∧
        Forall2 (returned h0 (cloned_at l2 (length (st_heap st))) rec VUndefined)
          (get_index h0 (VRef l2) <$> seq 0 (arr_length h0 (VRef l2))) vs.
Proof.
  intros Hinv Hl2 Hnone Harr Hrun.
  unfold mergeBody in Hrun. rewrite decide_False, Hnone in Hrun by done.
  rewrite (isArray_stable h0) in Hrun by (apply Hinv || done).
  rewrite Harr in Hrun. cbn [alloc] in Hrun.
  change (with_heap _ st) with (alloc (OArray []) st).2 in Hrun.
  destruct (isArray_true _ _ Harr) as [es0 Hes0].
  destruct (alloc_clone_step st l2 (OArray []) (OArray es0) Hinv Hnone)
    as (Hinv1 & Hext1 & Hnew); [by rewrite (inv_input _ _ Hinv)|done..|].
  rewrite (arr_length_stable h0) in Hrun by (apply Hinv1 || done).
  destruct (pushLoop _ _ _ _ _ _) as [st2|] eqn:Hloop; simpl in Hrun; [|done].
  simplify_eq.
  eapply pushLoop_ok in Hloop as (Hinv' & Hfr & vs & Hvs & Hall);
    [|done|done|apply Hinv|done|done|done].
  split_and!; [done|done|by eapply extends_alloc_frame|].
  exists vs. split; [done|]. eapply Forall2_impl; [exact Hall|].
  intros x y. apply returned_weaken. apply cloned_at_grow.
Qed.

Lemma body_clone_plain l2 st v st' :
  inv h0 st → l2 < N → cloneMap st !! l2 = None →
  isPlainObject h0 (VRef l2) = true →
  mergeBody mergeArrays rec VUndefined (VRef l2) st = Some (v, st') →
  v = VRef (length (st_heap st)) ∧ inv h0 st' ∧ extends st st' ∧
  ∃ vs, st_heap st' !! length (st_heap st)
        = Some (OPlain (set_all (zip (keys h0 (VRef l2)) vs) [])) ∧
        Forall2 (λ k v, returned h0 (cloned_at l2 (length (st_heap st))) rec
                          VUndefined (get_prop h0 (VRef l2) k) v)
          (keys h0 (VRef l2)) vs.
Proof.
  intros Hinv Hl2 Hnone Hplain Hrun.
  unfold mergeBody in Hrun. rewrite decide_False, Hnone in Hrun by done.
  rewrite (isArray_stable h0), (isPlainObject_stable h0) in Hrun
    by (apply Hinv || done).
  destruct (isPlainObject_true _ _ Hplain) as [ps0 Hps0].
  assert (isArray h0 (VRef l2) = false) as Hna by (simpl; by rewrite Hps0).
  rewrite Hna, Hplain in Hrun. cbn [alloc] in Hrun.
  change (with_heap _ st) with (alloc (OPlain []) st).2 in Hrun.
  destruct (alloc_clone_step st l2 (OPlain []) (OPlain ps0) Hinv Hnone)
    as (Hinv1 & Hext1 & Hnew); [by rewrite (inv_input _ _ Hinv)|done..|].
  rewrite (keys_stable h0) in Hrun by (apply Hinv1 || done).
  destruct (cloneKeysLoop _ _ _ _ _) as [st2|] eqn:Hloop; simpl in Hrun; [|done].
  simplify_eq.
  eapply cloneKeysLoop_ok in Hloop as (Hinv' & Hfr & vs & Hvs & Hall);
    [|done|done|apply Hinv|done|done|done].
  split_and!; [done|done|by eapply extends_alloc_frame|].
  exists vs. split; [done|]. eapply Forall2_impl; [exact Hall|].
  intros x y. apply returned_weaken. apply cloned_at_grow.
Qed.

Lemma body_pair_array l1 l2 st v st' :
  inv h0 st → l1 < N → l2 < N → l1 ≠ l2 → getPair l1 l2 st = None →
  isArray h0 (VRef l2) = true →
  mergeBody mergeArrays rec (VRef l1) (VRef l2) st = Some (v, st') →
  v = VRef (length (st_heap st)) ∧ inv h0 st' ∧ extends st st' ∧
  ∃ vs, st_heap st' !! length (st_heap st) = Some (OArray vs) ∧
        Forall2 (returned h0 (paired_at l1 l2 (length (st_heap st))) rec
                   VUndefined) (pushed h0 mergeArrays l1 l2) vs.
Proof.
  intros Hinv Hl1 Hl2 Hne Hnone Harr Hrun.
  unfold mergeBody in Hrun. rewrite decide_False, Hnone in Hrun by congruence.
  rewrite (isArray_stable h0 _ (inv_input _ _ Hinv) (VRef l2)) in Hrun by done.
  rewrite (isArray_stable h0 _ (inv_input _ _ Hinv) (VRef l1)) in Hrun by done.
  rewrite Harr in Hrun. unfold pushed.
  destruct (isArray_true _ _ Harr) as [es0 Hes0].
  destruct (alloc_pair_step st l1 l2 (OArray []) (OArray es0) Hinv Hnone)
    as (Hinv1 & Hext1 & Hnew); [by rewrite (inv_input _ _ Hinv)|done..|].
  destruct (isArray h0 (VRef l1)) eqn:Harr1; cbn [negb alloc] in Hrun;
    change (with_heap _ st) with (alloc (OArray []) st).2 in Hrun;
    [destruct mergeArrays|]; cbn [andb].
  - apply bind_Some in Hrun as (st2 & Hloop1 & Hrun).
    rewrite (arr_length_stable h0) in Hloop1 by (apply Hinv1 || done).
    eapply pushLoop_ok in Hloop1 as (Hinv2 & Hfr2 & vs1 & Hvs1 & Hall1);
      [|done|done|apply Hinv|done|done|done].
    apply bind_Some in Hrun as (st3 & Hloop2 & Hrun).
    rewrite (arr_length_stable h0) in Hloop2 by (apply Hinv2 || done).
    simplify_eq.
    eapply pushLoop_ok in Hloop2 as (Hinv3 & Hfr3 & vs2 & Hvs2 & Hall2);
      [|done|done|apply Hinv|done|done|done].
    split_and!; [done|done| |].
    + eapply extends_alloc_frame; [done|]. by eapply frame_trans.
    + exists (vs1 ++ vs2). split; [done|]. apply Forall2_app.
      * eapply Forall2_impl; [exact Hall1|].
        intros x y. apply returned_weaken. apply paired_at_grow.
      * eapply Forall2_impl; [exact Hall2|].
        intros x y. apply returned_weaken. intros s Hs.
        eapply paired_at_grow, tables_grow_trans; [apply Hfr2 | exact Hs].
  - apply bind_Some in Hrun as (st2 & Hloop & Hrun).
    rewrite (arr_length_stable h0) in Hloop by (apply Hinv1 || done).
    simplify_eq.
    eapply pushLoop_ok in Hloop as (Hinv' & Hfr & vs & Hvs & Hall);
      [|done|done|apply Hinv|done|done|done].
    split_and!; [done|done|by eapply extends_alloc_frame|].
    exists vs. split; [done|]. eapply Forall2_impl; [exact Hall|].
    intros x y. apply returned_weaken. apply paired_at_grow.
  - apply bind_Some in Hrun as (st2 & Hloop & Hrun).
    rewrite (arr_length_stable h0) in Hloop by (apply Hinv1 || done).
    simplify_eq.
    eapply pushLoop_ok in Hloop as (Hinv' & Hfr & vs & Hvs & Hall);
      [|done|done|apply Hinv|done|done|done].
    split_and!; [done|done|by eapply extends_alloc_frame|].
    rewrite andb_false_r. exists vs. split; [done|].
    eapply Forall2_impl; [exact Hall|].
    intros x y. apply returned_weaken. apply paired_at_grow.
Qed.

Lemma body_array_plain l1 l2 st v st' :
  inv h0 st → l1 < N → l2 < N → l1 ≠ l2 → getPair l1 l2 st = None →
  isArray h0 (VRef l1) = true → isPlainObject h0 (VRef l2) = true →
  mergeBody mergeArrays rec (VRef l1) (VRef l2) st = Some (v, st') →
  v = VRef (length (st_heap st)) ∧ inv h0 st' ∧ extends st st' ∧
  ∃ vs, st_heap st' !! length (st_heap st)
        = Some (OPlain (set_all (zip (keys h0 (VRef l2)) vs) [])) ∧
        Forall2 (λ k v, returned h0 (paired_at l1 l2 (length (st_heap st))) rec
                          VUndefined (get_prop h0 (VRef l2) k) v)
          (keys h0 (VRef l2)) vs.
Proof.
  intros Hinv Hl1 Hl2 Hne Hnone Harr1 Hplain Hrun.
  unfold mergeBody in Hrun. rewrite decide_False, Hnone in Hrun by congruence.
  rewrite (isArray_stable h0 _ (inv_input _ _ Hinv) (VRef l2)) in Hrun by done.
  rewrite (isArray_stable h0 _ (inv_input _ _ Hinv) (VRef l1)) in Hrun by done.
  rewrite (isPlainObject_stable h0 _ (inv_input _ _ Hinv) (VRef l2)) in Hrun
    by done.
  destruct (isPlainObject_true _ _ Hplain) as [ps0 Hps0].
  assert (isArray h0 (VRef l2) = false) as Hna by (simpl; by rewrite Hps0).
  rewrite Hna, Harr1, Hplain in Hrun. cbn [andb alloc] in Hrun.
  change (with_heap _ st) with (alloc (OPlain []) st).2 in Hrun.
  destruct (alloc_pair_step st l1 l2 (OPlain []) (OPlain ps0) Hinv Hnone)
    as (Hinv1 & Hext1 & Hnew); [by rewrite (inv_input _ _ Hinv)|done..|].
  apply bind_Some in Hrun as (st2 & Hloop & Hrun).
  rewrite (keys_stable h0) in Hloop by (apply Hinv1 || done).
  simplify_eq.
  eapply cloneKeysLoop_ok in Hloop as (Hinv' & Hfr & vs & Hvs & Hall);
    [|done|done|apply Hinv|done|done|done].
  split_and!; [done|done|by eapply extends_alloc_frame|].
  exists vs. split; [done|]. eapply Forall2_impl; [exact Hall|].
  intros x y. apply returned_weaken. apply paired_at_grow.
Qed.

Lemma body_plain_plain l1 l2 st v st' :
  inv h0 st → l1 < N → l2 < N → l1 ≠ l2 → getPair l1 l2 st = None →
  isPlainObject h0 (VRef l1) = true → isPlainObject h0 (VRef l2) = true →
  mergeBody mergeArrays rec (VRef l1) (VRef l2) st = Some (v, st') →
  v = VRef (length (st_heap st)) ∧ inv h0 st' ∧ extends st st' ∧
  ∃ vs, st_heap st' !! length (st_heap st)
        = Some (OPlain (set_all (zip (keys h0 (VRef l2)) vs)
                          (merged_base h0 (length (st_heap st)) (VRef l1)))) ∧
        Forall2 (λ k v, returned h0 (paired_at l1 l2 (length (st_heap st))) rec
                          (merge_target h0 (VRef l1) (VRef l2) k)
                          (get_prop h0 (VRef l2) k) v)
          (keys h0 (VRef l2)) vs.
Proof.
  intros Hinv Hl1 Hl2 Hne Hnone Hplain1 Hplain2 Hrun.
  unfold mergeBody in Hrun. rewrite decide_False, Hnone in Hrun by congruence.
  rewrite (isArray_stable h0 _ (inv_input _ _ Hinv) (VRef l2)) in Hrun by done.
  rewrite (isArray_stable h0 _ (inv_input _ _ Hinv) (VRef l1)) in Hrun by done.
  rewrite (isPlainObject_stable h0 _ (inv_input _ _ Hinv) (VRef l2)) in Hrun
    by done.
  rewrite (isPlainObject_stable h0 _ (inv_input _ _ Hinv) (VRef l1)) in Hrun
    by done.
  destruct (isPlainObject_true _ _ Hplain1) as [ps1 Hps1].
  destruct (isPlainObject_true _ _ Hplain2) as [ps2 Hps2].
  assert (isArray h0 (VRef l2) = false) as Hna2 by (simpl; by rewrite Hps2).
  assert (isArray h0 (VRef l1) = false) as Hna1 by (simpl; by rewrite Hps1).
  rewrite Hna2, Hna1, Hplain1, Hplain2 in Hrun. cbn [andb orb negb alloc] in Hrun.
  change (with_heap (λ h, h ++ [OPlain []]) st) with (alloc (OPlain []) st).2 in Hrun.
  set (out := length (st_heap st)) in *.
  set (sta := (alloc (OPlain []) st).2) in *.
  pose proof (inv_alloc h0 (OPlain []) st Hinv) as Hinva. fold sta in Hinva.
  assert (N ≤ out) as Hout by apply Hinv.
  rewrite (keys_stable h0 _ (inv_input _ _ Hinva) (VRef l1)) in Hrun by done.
  assert (st_heap sta !! out = Some (OPlain [])) as Hnewa.
  { subst sta out. simpl. rewrite lookup_app_r by lia. by rewrite Nat.sub_diag. }
  destruct (copyKeysLoop_spec out (VRef l1) (keys h0 (VRef l1))
              ltac:(intros ?; simplify_eq; lia) _ _ Hnewa) as [Tb Hnewb].
  set (stb := with_heap (copyKeysLoop out (VRef l1) (keys h0 (VRef l1))) sta) in *.
  pose proof (inv_touch h0 out _ sta Hinva Hout Tb) as Hinvb. fold stb in Hinvb.
  assert (copy_props (st_heap sta) (VRef l1) (keys h0 (VRef l1)) []
          = copy_props h0 (VRef l1) (keys h0 (VRef l1)) []) as Ecopy.
  { unfold copy_props. f_equal. apply list_fmap_ext. intros i k _. f_equal.
    apply (get_prop_stable h0); [apply Hinva | done]. }
  rewrite Ecopy in Hnewb.
  set (stc := setPair l1 l2 out stb) in *.
  assert (inv h0 stc) as Hinvc.
  { apply inv_setPair; [done|]. split; [done|].
    exists (OPlain ps2), (OPlain (copy_props h0 (VRef l1) (keys h0 (VRef l1)) [])).
    split_and!; try done. by rewrite (inv_input _ _ Hinvb). }
  destruct (fixSelfLoop_spec out (VRef l1) (keys h0 (VRef l1)) (st_heap stc) _ Hnewb)
    as [Td Hnewd].
  set (std := with_heap (fixSelfLoop out (VRef l1) (keys h0 (VRef l1))) stc) in *.
  pose proof (inv_touch h0 out _ stc Hinvc Hout Td) as Hinvd. fold std in Hinvd.
  rewrite (keys_stable h0 _ (inv_input _ _ Hinvd) (VRef l2)) in Hrun by done.
  apply bind_Some in Hrun as (st2 & Hloop & Hrun). simplify_eq.
  eapply mergeKeysLoop_ok in Hloop as (Hinv' & Hfr & vs & Hvs & Hall);
    [|done|done|done|done|done|done|done].
  split_and!; [done|done| |].
  2:{ exists vs. split; [done|]. eapply Forall2_impl; [exact Hall|].
      intros x y. apply returned_weaken. intros s Hs.
      apply (paired_at_grow l1 l2 out stb). exact Hs. }
  eapply extends_alloc_frame; [apply (extends_alloc (OPlain []))|].
  fold sta out.
  eapply frame_trans; [apply (frame_touch out _ sta Tb)|]. fold stb.
  eapply frame_trans; [|eapply frame_trans; [apply (frame_touch out _ stc Td)|done]].
  apply frame_tables; [done|]. apply tables_grow_setPair. by subst stb sta.
Qed.

(** The branches that return at once. *)
Lemma body_return_source obj1 obj2 st :
  inv h0 st → val_closed N obj1 → val_closed N obj2 →
  isArray h0 obj2 = false → isPlainObject h0 obj2 = false →
  mergeBody mergeArrays rec obj1 obj2 st = Some (obj2, st).
Proof.
  intros Hinv H1 H2 Harr Hplain. unfold mergeBody.
  destruct (decide (obj1 = obj2)) as [->|Hne]; [done|].
  destruct obj2 as [| | | | | |l2]; try done.
  assert (cloneMap st !! l2 = None) as Hc.
  { destruct (cloneMap st !! l2) as [c|] eqn:E; [|done].
    destruct (inv_clone _ _ Hinv _ _ E) as (_ & o & o' & Ho & _ & _ & Hk).
    rewrite (inv_input _ _ Hinv) in Ho by done.
    simpl in Harr, Hplain. rewrite Ho in Harr, Hplain. by destruct o. }
  assert (∀ l1, getPair l1 l2 st = None) as Hp.
  { intros l1. destruct (getPair l1 l2 st) as [c|] eqn:E; [|done].
    destruct (inv_pair _ _ Hinv _ _ _ E) as (_ & o & o' & Ho & _ & _ & Hk).
    rewrite (inv_input _ _ Hinv) in Ho by done.
    simpl in Harr, Hplain. rewrite Ho in Harr, Hplain. by destruct o. }
  rewrite (isArray_stable h0 _ (inv_input _ _ Hinv) (VRef l2)) by done.
  rewrite (isPlainObject_stable h0 _ (inv_input _ _ Hinv) (VRef l2)) by done.
  rewrite Harr, Hplain, Hc.
  destruct obj1 as [| | | | | |l1]; try done.
  rewrite Hp. by rewrite andb_false_r, orb_true_r.
Qed.

Lemma body_clone_hit l2 c st :
  cloneMap st !! l2 = Some c →
  mergeBody mergeArrays rec VUndefined (VRef l2) st = Some (VRef c, st).
Proof. intros E. unfold mergeBody. by rewrite decide_False, E. Qed.

Lemma body_pair_hit l1 l2 o st :
  l1 ≠ l2 → getPair l1 l2 st = Some o →
  mergeBody mergeArrays rec (VRef l1) (VRef l2) st = Some (VRef o, st).
Proof.
  intros Hne E. unfold mergeBody. by rewrite decide_False, E by congruence.
Qed.

(** A target that is neither an array nor a plain object is replaced by
    the source object itself. *)
Lemma body_opaque_target l1 l2 st :
  inv h0 st → l1 < N → l2 < N → l1 ≠ l2 → getPair l1 l2 st = None →
  isArray h0 (VRef l1) = false → isPlainObject h0 (VRef l1) = false →
  isArray h0 (VRef l2) = false →
  mergeBody mergeArrays rec (VRef l1) (VRef l2) st = Some (VRef l2, st).
Proof.
  intros Hinv Hl1 Hl2 Hne Hnone Ha1 Hp1 Ha2. unfold mergeBody.
  rewrite decide_False, Hnone by congruence.
  rewrite (isArray_stable h0 _ (inv_input _ _ Hinv) (VRef l2)) by done.
  rewrite (isArray_stable h0 _ (inv_input _ _ Hinv) (VRef l1)) by done.
  rewrite (isPlainObject_stable h0 _ (inv_input _ _ Hinv) (VRef l1)) by done.
  by rewrite Ha1, Hp1, Ha2.
Qed.

(** One call keeps the invariant and writes to no cell that existed
    before it. *)
Lemma body_ok : call_ok h0 (mergeBody mergeArrays rec).
Proof.
  intros obj1 obj2 st v st' Hinv H1 H2 Hrun.
  destruct (decide (obj1 = obj2)) as [->|Hne].
  { unfold mergeBody in Hrun. rewrite decide_True in Hrun by done.
    simplify_eq. split; [done | apply extends_refl]. }
  destruct (isArray h0 obj2) eqn:Ha2; [|destruct (isPlainObject h0 obj2) eqn:Hp2].
  3:{ rewrite body_return_source in Hrun by done. simplify_eq.
      split; [done | apply extends_refl]. }
  all: destruct obj2 as [| | | | | |l2]; try done; simpl in H2.
  all: destruct (isObject obj1) eqn:Ho1;
    [destruct obj1 as [| | | | | |l1]; try done; simpl in H1;
     assert (l1 ≠ l2) as Hne' by congruence;
     destruct (getPair l1 l2 st) as [o|] eqn:Hpair;
     [rewrite (body_pair_hit _ _ _ _ Hne' Hpair) in Hrun; simplify_eq;
      split; [done | apply extends_refl]|]
    |rewrite mergeBody_clone in Hrun by done;
     destruct (cloneMap st !! l2) as [c|] eqn:Hclone;
     [rewrite (body_clone_hit _ _ _ Hclone) in Hrun; simplify_eq;
      split; [done | apply extends_refl]|]].
  - by eapply body_pair_array in Hrun as (_ & ? & ? & _).
  - by eapply body_clone_array in Hrun as (_ & ? & ? & _).
  - destruct (isArray h0 (VRef l1)) eqn:Ha1;
      [|destruct (isPlainObject h0 (VRef l1)) eqn:Hp1].
    + by eapply body_array_plain in Hrun as (_ & ? & ? & _).
    + by eapply body_plain_plain in Hrun as (_ & ? & ? & _).
    + rewrite body_opaque_target in Hrun by done. simplify_eq.
      split; [done | apply extends_refl].
  - by eapply body_clone_plain in Hrun as (_ & ? & ? & _).
Qed.
End Body.

(** ** The recursion *)

Section Recursion.
Variable h0 : heap.
Hypothesis Hwf : wf_heap h0.
Variable mergeArrays : bool.

Lemma internalDeepMerge_ok fuel :
  call_ok h0 (internalDeepMerge mergeArrays fuel).
Proof.
  induction fuel as [|fuel IH]; simpl.
  - intros ? ? ? ? ? _ _ _ ?. done.
  - by apply body_ok.
Qed.
End Recursion.

(** ** Termination: every call that does not return at once marks a new
    table entry *)

Lemma filter_length_mono {A} (P Q : A → Prop)
  `{!∀ x, Decision (P x)} `{!∀ x, Decision (Q x)} (l : list A) :
  (∀ x, Q x → P x) → length (filter Q l) ≤ length (filter P l).
Proof.
  intros Himp. induction l as [|x l IH]; [done|].
  rewrite !filter_cons. destruct (decide (Q x)) as [HQ|HQ].
  - rewrite decide_True by auto. simpl. lia.
  - destruct (decide (P x)); simpl; lia.
Qed.

Lemma filter_length_lt {A} (P Q : A → Prop)
  `{!∀ x, Decision (P x)} `{!∀ x, Decision (Q x)} (l : list A) x0 :
  (∀ x, Q x → P x) → x0 ∈ l → P x0 → ¬ Q x0 →
  length (filter Q l) < length (filter P l).
Proof.
  intros Himp Hin HP HQ. induction l as [|x l IH]; [by apply elem_of_nil in Hin|].
  rewrite !filter_cons. apply elem_of_cons in Hin as [<-|Hin].
  - rewrite decide_False, decide_True by done. simpl.
    pose proof (filter_length_mono P Q l Himp). lia.
  - specialize (IH Hin). destruct (decide (Q x)) as [HQx|HQx].
    + rewrite decide_True by auto. simpl. lia.
    + destruct (decide (P x)); simpl; lia.
Qed.

Lemma filter_all {A} (P : A → Prop) `{!∀ x, Decision (P x)} (l : list A) :
  (∀ x, P x) → filter P l = l.
Proof.
  intros HP. induction l as [|x l IH]; [done|].
  rewrite filter_cons, decide_True by done. by rewrite IH.
Qed.

Section Unmarked.
Variable n : nat.

Lemma unmarked_mono st st' :
  tables_grow st st' → unmarked n st' ≤ unmarked n st.
Proof.
  intros [Hc Hp]. unfold unmarked. apply Nat.add_le_mono.
  - apply filter_length_mono. intros l E.
    destruct (cloneMap st !! l) eqn:E'; [|done]. apply Hc in E'. congruence.
  - apply filter_length_mono. intros [a b] E. simpl in *.
    destruct (getPair a b st) eqn:E'; [|done]. apply Hp in E'. congruence.
Qed.

Lemma unmarked_clone_lt st st' l :
  tables_grow st st' → l < n →
  cloneMap st !! l = None → is_Some (cloneMap st' !! l) →
  unmarked n st' < unmarked n st.
Proof.
  intros [Hc Hp] Hl Hnone [c Hsome]. unfold unmarked.
  apply Nat.add_lt_le_mono.
  - apply (filter_length_lt _ _ _ l); [|apply elem_of_seq; lia|done|congruence].
    intros l' E. destruct (cloneMap st !! l') eqn:E'; [|done].
    apply Hc in E'. congruence.
  - apply filter_length_mono. intros [a b] E. simpl in *.
    destruct (getPair a b st) eqn:E'; [|done]. apply Hp in E'. congruence.
Qed.

Lemma unmarked_pair_lt st st' a b :
  tables_grow st st' → a < n → b < n →
  getPair a b st = None → is_Some (getPair a b st') →
  unmarked n st' < unmarked n st.
Proof.
  intros [Hc Hp] Ha Hb Hnone [c Hsome]. unfold unmarked.
  apply Nat.add_le_lt_mono.
  - apply filter_length_mono. intros l' E.
    destruct (cloneMap st !! l') eqn:E'; [|done]. apply Hc in E'. congruence.
  - apply (filter_length_lt _ _ _ (a, b)); simpl; [| |done|congruence].
    + intros [a' b'] E. simpl in *.
      destruct (getPair a' b' st) eqn:E'; [|done]. apply Hp in E'. congruence.
    + apply list_elem_of_In, in_prod_iff.
      split; apply list_elem_of_In, elem_of_seq; simpl; lia.
Qed.

Lemma unmarked_init h : unmarked n (mkState h ∅ ∅) = n + n * n.
Proof.
  unfold unmarked. f_equal.
  - rewrite filter_all; [apply length_seq|]. intros. apply lookup_empty.
  - rewrite filter_all; [|by intros [a b]].
    by rewrite length_prod, !length_seq.
Qed.
End Unmarked.

Lemma is_Some_bind {A B} (m : option A) (f : A → option B) :
  is_Some m → (∀ x, m = Some x → is_Some (f x)) → is_Some (m ≫= f).
Proof. intros [x ->] Hf. simpl. by apply Hf. Qed.

Section Totality.
Variable h0 : heap.
Local Abbreviation N := (length h0).
Hypothesis Hwf : wf_heap h0.
Variable mergeArrays : bool.
Variable rec : call.
Hypothesis Hrec : call_ok h0 rec.
(** The recursive calls return as long as fewer than [m] entries are
    left to mark. *)
Variable m : nat.
Hypothesis Htot : ∀ x1 x2 s,
  inv h0 s → val_closed N x1 → val_closed N x2 → unmarked N s < m →
  is_Some (rec x1 x2 s).

Lemma pushLoop_total newArr src n :
  N ≤ newArr → val_closed N src →
  ∀ i st, inv h0 st → unmarked N st < m →
          is_Some (pushLoop rec newArr src i n st).
Proof.
  intros Hnew Hsrc. induction n as [|n IH]; intros i st Hinv Hm; simpl; [eauto|].
  rewrite (get_index_stable h0) by (apply Hinv || done).
  destruct (Htot VUndefined (get_index h0 src i) st Hinv I
              (get_index_closed h0 Hwf src i) Hm) as [[v st1] Hcall].
  rewrite Hcall.
  destruct (Hrec VUndefined _ _ _ _ Hinv I (get_index_closed h0 Hwf src i) Hcall)
    as [Hinv1 Hext1].
  apply IH.
  - apply (inv_touch h0 newArr); [done|done|apply push_touch].
  - pose proof (unmarked_mono N st st1 (proj2 (proj2 Hext1))).
    change (unmarked N (with_heap (push newArr v) st1)) with (unmarked N st1).
    lia.
Qed.

Lemma mergeKeysLoop_total output obj1 obj2 ks :
  N ≤ output → val_closed N obj1 → val_closed N obj2 →
  ∀ st, inv h0 st → unmarked N st < m →
        is_Some (mergeKeysLoop rec output obj1 obj2 ks st).
Proof.
  intros Hout H1 H2. induction ks as [|k ks IH]; intros st Hinv Hm; [simpl; eauto|].
  rewrite mergeKeysLoop_cons.
  rewrite (merge_target_stable h0), (get_prop_stable h0) by (apply Hinv || done).
  destruct (Htot _ _ st Hinv (merge_target_closed h0 Hwf obj1 obj2 k)
              (get_prop_closed h0 Hwf obj2 k) Hm) as [[v st1] Hcall].
  rewrite Hcall.
  destruct (Hrec _ _ _ _ _ Hinv (merge_target_closed h0 Hwf obj1 obj2 k)
              (get_prop_closed h0 Hwf obj2 k) Hcall) as [Hinv1 Hext1].
  apply IH.
  - apply (inv_touch h0 output); [done|done|apply set_prop_touch].
  - pose proof (unmarked_mono N st st1 (proj2 (proj2 Hext1))).
    change (unmarked N (with_heap (set_prop output k v) st1))
      with (unmarked N st1).
    lia.
Qed.

Lemma cloneKeysLoop_total result src ks :
  N ≤ result → val_closed N src →
  ∀ st, inv h0 st → unmarked N st < m →
        is_Some (cloneKeysLoop rec result src ks st).
Proof.
  intros Hres Hsrc st Hinv Hm. rewrite cloneKeysLoop_mergeKeysLoop.
  by apply mergeKeysLoop_total.
Qed.

Lemma alloc_pair_unmarked st l1 l2 o :
  l1 < N → l2 < N → getPair l1 l2 st = None →
  unmarked N (setPair l1 l2 (length (st_heap st)) (alloc o st).2)
  < unmarked N st.
Proof.
  intros H1 H2 Hnone. apply (unmarked_pair_lt N _ _ l1 l2); try done.
  - by apply (tables_grow_setPair l1 l2 _ (alloc o st).2).
  - rewrite getPair_setPair, decide_True by done. eauto.
Qed.

Lemma alloc_clone_unmarked st l2 o :
  l2 < N → cloneMap st !! l2 = None →
  unmarked N (cloneMap_set l2 (length (st_heap st)) (alloc o st).2)
  < unmarked N st.
Proof.
  intros H2 Hnone. apply (unmarked_clone_lt N _ _ l2); try done.
  - by apply (tables_grow_cloneMap_set l2 _ (alloc o st).2).
  - simpl. rewrite lookup_insert_eq. eauto.
Qed.

Lemma body_total obj1 obj2 st :
  inv h0 st → val_closed N obj1 → val_closed N obj2 →
  unmarked N st ≤ m →
  is_Some (mergeBody mergeArrays rec obj1 obj2 st).
Proof.
  intros Hinv H1 H2 Hm.
  destruct (decide (obj1 = obj2)) as [->|Hne].
  { unfold mergeBody. rewrite decide_True by done. eauto. }
  destruct (isArray h0 obj2) eqn:Ha2; [|destruct (isPlainObject h0 obj2) eqn:Hp2].
  3:{ rewrite (body_return_source h0) by done. eauto. }
  all: destruct obj2 as [| | | | | |l2]; try done; simpl in H2.
  all: destruct (isObject obj1) eqn:Ho1;
    [destruct obj1 as [| | | | | |l1]; try done; simpl in H1;
     assert (l1 ≠ l2) as Hne' by congruence;
     destruct (getPair l1 l2 st) as [o|] eqn:Hpair;
     [rewrite (body_pair_hit _ _ _ _ _ _ Hne' Hpair); eauto|]
    |rewrite mergeBody_clone by done;
     destruct (cloneMap st !! l2) as [c|] eqn:Hclone;
     [rewrite (body_clone_hit _ _ _ _ _ Hclone); eauto|]].
  - (* array source, object target *)
    unfold mergeBody. rewrite decide_False, Hpair by done.
    rewrite (isArray_stable h0 _ (inv_input _ _ Hinv) (VRef l2)) by done.
    rewrite (isArray_stable h0 _ (inv_input _ _ Hinv) (VRef l1)) by done.
    rewrite Ha2. cbn [alloc].
    change (with_heap (λ h, h ++ [OArray []]) st)
      with (alloc (OArray []) st).2.
    destruct (isArray_true _ _ Ha2) as [es0 Hes0].
    destruct (alloc_pair_step h0 st l1 l2 (OArray []) (OArray es0) Hinv Hpair)
      as (Hinv1 & Hext1 & Hnew); [by rewrite (inv_input _ _ Hinv)|done..|].
    pose proof (alloc_pair_unmarked st l1 l2 (OArray []) H1 H2 Hpair) as Hlt.
    assert (N ≤ length (st_heap st)) as Hout by apply Hinv.
    destruct (isArray h0 (VRef l1)); cbn [negb]; [destruct mergeArrays|].
    + apply is_Some_bind; [apply pushLoop_total; (done || lia)|].
      intros st2 Hloop1.
      eapply pushLoop_ok in Hloop1 as (Hinv2 & Hfr2 & _); [|done..].
      apply is_Some_bind; [|eauto].
      apply pushLoop_total; try done.
      pose proof (unmarked_mono N _ _ (proj2 (proj2 Hfr2))). lia.
    + apply is_Some_bind; [apply pushLoop_total; (done || lia)|eauto].
    + apply is_Some_bind; [apply pushLoop_total; (done || lia)|eauto].
  - (* array source, no target *)
    unfold mergeBody. rewrite decide_False, Hclone by done.
    rewrite (isArray_stable h0 _ (inv_input _ _ Hinv) (VRef l2)) by done.
    rewrite Ha2. cbn [alloc].
    change (with_heap (λ h, h ++ [OArray []]) st)
      with (alloc (OArray []) st).2.
    destruct (isArray_true _ _ Ha2) as [es0 Hes0].
    destruct (alloc_clone_step h0 st l2 (OArray []) (OArray es0) Hinv Hclone)
      as (Hinv1 & Hext1 & Hnew); [by rewrite (inv_input _ _ Hinv)|done..|].
    pose proof (alloc_clone_unmarked st l2 (OArray []) H2 Hclone) as Hlt.
    assert (N ≤ length (st_heap st)) as Hout by apply Hinv.
    apply is_Some_bind; [apply pushLoop_total; (done || lia)|eauto].
  - (* plain source, object target *)
    destruct (isPlainObject_true _ _ Hp2) as [ps2 Hps2].
    assert (N ≤ length (st_heap st)) as Hout by apply Hinv.
    destruct (isArray h0 (VRef l1)) eqn:Ha1;
      [|destruct (isPlainObject h0 (VRef l1)) eqn:Hp1].
    3:{ rewrite (body_opaque_target h0) by done. eauto. }
    all: unfold mergeBody; rewrite decide_False, Hpair by done.
    all: rewrite (isArray_stable h0 _ (inv_input _ _ Hinv) (VRef l2)) by done.
    all: rewrite (isArray_stable h0 _ (inv_input _ _ Hinv) (VRef l1)) by done.
    all: rewrite (isPlainObject_stable h0 _ (inv_input _ _ Hinv) (VRef l2)) by done.
    all: rewrite ?(isPlainObject_stable h0 _ (inv_input _ _ Hinv) (VRef l1)) by done.
    all: rewrite Ha2, Ha1, Hp2, ?Hp1; cbn [andb orb negb alloc].
    all: change (with_heap (λ h, h ++ [OPlain []]) st)
           with (alloc (OPlain []) st).2.
    + destruct (alloc_pair_step h0 st l1 l2 (OPlain []) (OPlain ps2) Hinv Hpair)
        as (Hinv1 & Hext1 & Hnew); [by rewrite (inv_input _ _ Hinv)|done..|].
      pose proof (alloc_pair_unmarked st l1 l2 (OPlain []) H1 H2 Hpair) as Hlt.
      apply is_Some_bind; [apply cloneKeysLoop_total; (done || lia)|eauto].
    + set (out := length (st_heap st)) in *.
      set (sta := (alloc (OPlain []) st).2) in *.
      pose proof (inv_alloc h0 (OPlain []) st Hinv) as Hinva. fold sta in Hinva.
      assert (st_heap sta !! out = Some (OPlain [])) as Hnewa.
      { subst sta out. simpl. rewrite lookup_app_r by lia.
        by rewrite Nat.sub_diag. }
      set (ks1 := keys (st_heap sta) (VRef l1)).
      destruct (copyKeysLoop_spec out (VRef l1) ks1
                  ltac:(intros ?; simplify_eq; lia) _ _ Hnewa) as [Tb Hnewb].
      set (stb := with_heap (copyKeysLoop out (VRef l1) ks1) sta) in *.
      pose proof (inv_touch h0 out _ sta Hinva Hout Tb) as Hinvb.
      fold stb in Hinvb.
      set (stc := setPair l1 l2 out stb) in *.
      assert (inv h0 stc) as Hinvc.
      { apply inv_setPair; [done|]. split; [done|].
        eexists (OPlain ps2), _. split_and!; [|apply Hnewb|done|done].
        by rewrite (inv_input _ _ Hinvb). }
      destruct (fixSelfLoop_spec out (VRef l1) ks1 (st_heap stc) _ Hnewb)
        as [Td Hnewd].
      set (std := with_heap (fixSelfLoop out (VRef l1) ks1) stc) in *.
      pose proof (inv_touch h0 out _ stc Hinvc Hout Td) as Hinvd.
      fold std in Hinvd.
      pose proof (alloc_pair_unmarked st l1 l2 (OPlain []) H1 H2 Hpair) as Hlt.
      change (unmarked N (setPair l1 l2 (length (st_heap st))
                            (alloc (OPlain []) st).2))
        with (unmarked N std) in Hlt.
      apply is_Some_bind; [apply mergeKeysLoop_total; (done || lia)|eauto].
  - (* plain source, no target *)
    unfold mergeBody. rewrite decide_False, Hclone by done.
    rewrite (isArray_stable h0 _ (inv_input _ _ Hinv) (VRef l2)) by done.
    rewrite (isPlainObject_stable h0 _ (inv_input _ _ Hinv) (VRef l2)) by done.
    rewrite Ha2, Hp2. cbn [alloc].
    change (with_heap (λ h, h ++ [OPlain []]) st)
      with (alloc (OPlain []) st).2.
    destruct (isPlainObject_true _ _ Hp2) as [ps2 Hps2].
    destruct (alloc_clone_step h0 st l2 (OPlain []) (OPlain ps2) Hinv Hclone)
      as (Hinv1 & Hext1 & Hnew); [by rewrite (inv_input _ _ Hinv)|done..|].
    pose proof (alloc_clone_unmarked st l2 (OPlain []) H2 Hclone) as Hlt.
    assert (N ≤ length (st_heap st)) as Hout by apply Hinv.
    apply is_Some_bind; [apply cloneKeysLoop_total; (done || lia)|eauto].
Qed.
End Totality.

Section RecursionTotal.
Variable h0 : heap.
Hypothesis Hwf : wf_heap h0.
Variable mergeArrays : bool.

(** With more fuel than entries left to mark, the call returns. *)
Lemma internalDeepMerge_total fuel :
  ∀ obj1 obj2 st,
    inv h0 st → val_closed (length h0) obj1 → val_closed (length h0) obj2 →
    unmarked (length h0) st < fuel →
    is_Some (internalDeepMerge mergeArrays fuel obj1 obj2 st).
Proof.
  induction fuel as [|fuel IH]; intros obj1 obj2 st Hinv H1 H2 Hm; [lia|].
  simpl. apply (body_total h0 Hwf mergeArrays _
                  (internalDeepMerge_ok h0 Hwf mergeArrays fuel) fuel IH);
    (done || lia).
Qed.
End RecursionTotal.

(** ** What a sequence of writes leaves in a property list *)

Lemma set_all_cons k v kvs ps :
  set_all ((k, v) :: kvs) ps = set_all kvs (prop_set k v ps).
Proof. done. Qed.

Lemma prop_lookup_set_all_notin k kvs :
  ∀ ps, k ∉ kvs.*1 → prop_lookup k (set_all kvs ps) = prop_lookup k ps.
Proof.
  induction kvs as [|[k1 v1] kvs IH]; intros ps Hnot; [done|].
  rewrite set_all_cons. simpl in Hnot.
  apply not_elem_of_cons in Hnot as [Hne Hnot].
  rewrite IH by done. rewrite prop_lookup_prop_set. by rewrite decide_False.
Qed.

Lemma prop_lookup_set_all_in k v kvs :
  ∀ ps, NoDup kvs.*1 → (k, v) ∈ kvs →
        prop_lookup k (set_all kvs ps) = Some v.
Proof.
  induction kvs as [|[k1 v1] kvs IH]; intros ps Hnd Hin.
  - by apply elem_of_nil in Hin.
  - rewrite set_all_cons. simpl in Hnd. apply NoDup_cons in Hnd as [Hk1 Hnd].
    apply elem_of_cons in Hin as [Heq|Hin].
    + simplify_eq. rewrite prop_lookup_set_all_notin by done.
      rewrite prop_lookup_prop_set. by rewrite decide_True.
    + by apply IH.
Qed.


Lemma set_all_zip_in (R : string → value → Prop) k ks vs ps :
  NoDup ks → Forall2 R ks vs → k ∈ ks →
  ∃ v, prop_lookup k (set_all (zip ks vs) ps) = Some v ∧ R k v.
Proof.
  intros Hnd Hall Hin.
  apply list_elem_of_lookup in Hin as [i Hi].
  destruct (Forall2_lookup_l _ _ _ _ _ Hall Hi) as (v & Hv & HR).
  exists v. split; [|done].
  apply prop_lookup_set_all_in.
  - rewrite fst_zip; [done|]. by rewrite (Forall2_length _ _ _ Hall).
  - apply list_elem_of_lookup. exists i. by apply lookup_zip_Some.
Qed.





(** ** The top-level call *)

Lemma inv_init h : inv h (mkState h ∅ ∅).
Proof.
  split; simpl; done.
Qed.

Lemma agree_prefix (h h' : heap) :
  length h ≤ length h' → (∀ l, l < length h → h' !! l = h !! l) →
  h `prefix_of` h'.
Proof.
  intros Hlen Hagree. exists (drop (length h) h'). apply list_eq. intros i.
  destruct (decide (i < length h)) as [Hi|Hi].
  - rewrite lookup_app_l by done. by apply Hagree.
  - rewrite lookup_app_r by lia. rewrite lookup_drop. f_equal. lia.
Qed.

Lemma extends_prefix st st' :
  extends st st' → st_heap st `prefix_of` st_heap st'.
Proof.
  intros (Hlen & Hsame & _). apply agree_prefix; [done|].
  intros l Hl. apply Hsame; lia.
Qed.

(** The call of [internalDeepMerge] that [deepMerge] makes on roots that
    are not both scalars, and an empty object otherwise. *)
Lemma deepMerge_unfold mergeArrays fuel target source h :
  deepMerge mergeArrays fuel target source h
  = if negb (isObject target) && negb (isObject source)
    then Some (VRef (length h), h ++ [OPlain []])
    else '(v, st) ← internalDeepMerge mergeArrays fuel
                      (if isObject target && isObject source then target
                       else VUndefined)
                      (if isObject source then source else target)
                      (mkState h ∅ ∅);
         Some (v, st_heap st).
Proof.
  unfold deepMerge. by destruct (isObject target), (isObject source).
Qed.

Section TopLevel.
Variable mergeArrays : bool.
Variable h : heap.
Hypothesis Hwf : wf_heap h.
Variables target source : value.
Hypothesis Htarget : val_closed (length h) target.
Hypothesis Hsource : val_closed (length h) source.

Lemma deepMerge_returns fuel :
  length h + length h * length h < fuel →
  ∃ v h', deepMerge mergeArrays fuel target source h = Some (v, h').
Proof.
  intros Hfuel. rewrite deepMerge_unfold.
  destruct (negb (isObject target) && negb (isObject source)); [eauto|].
  edestruct (internalDeepMerge_total h Hwf mergeArrays fuel) as [[v st] E];
    [apply inv_init| | |by rewrite unmarked_init|rewrite E; simpl; eauto].
  - by destruct (isObject target && isObject source).
  - by destruct (isObject source).
Qed.

Lemma deepMerge_frame fuel v h' :
  deepMerge mergeArrays fuel target source h = Some (v, h') →
  h `prefix_of` h'.
Proof.
  rewrite deepMerge_unfold.
  destruct (negb (isObject target) && negb (isObject source)).
  { intros ?; simplify_eq. by apply prefix_app_r. }
  intros ([v' st] & Hrun & ?)%bind_Some. simplify_eq.
  eapply internalDeepMerge_ok in Hrun as [_ Hext];
    [by apply extends_prefix in Hext|done|apply inv_init| |].
  - by destruct (isObject target && isObject source).
  - by destruct (isObject source).
Qed.
End TopLevel.

(** ** What a recursive call can return *)

Section Returned.
Variable mergeArrays : bool.
Variable h : heap.
Hypothesis Hwf : wf_heap h.
Variable P : state → Prop.
Variable fuel : nat.
Local Abbreviation N := (length h).
Local Abbreviation rec := (internalDeepMerge mergeArrays fuel).



End Returned.

(** ** Merging two plain-object roots *)

Lemma deepMerge_same mergeArrays fuel h l v h' :
  deepMerge mergeArrays fuel (VRef l) (VRef l) h = Some (v, h') →
  v = VRef l ∧ h' = h.
Proof.
  rewrite deepMerge_unfold. simpl. destruct fuel as [|fuel]; [done|]. simpl.
  unfold mergeBody. rewrite decide_True by done. simpl.
  intros ?; by simplify_eq.
Qed.

Section PlainRoots.
Variable mergeArrays : bool.
Variable h : heap.
Hypothesis Hwf : wf_heap h.
Variables l1 l2 : loc.
Hypothesis Hl1 : l1 < length h.
Hypothesis Hl2 : l2 < length h.
Hypothesis Hp1 : isPlainObject h (VRef l1) = true.
Hypothesis Hp2 : isPlainObject h (VRef l2) = true.
Local Abbreviation N := (length h).

(** The output of the merge of two distinct plain roots: the target's
    properties with its self-references redirected, overwritten or
    extended by one write per key of the source. *)
Lemma deepMerge_plain_plain fuel v h' :
  l1 ≠ l2 →
  deepMerge mergeArrays fuel (VRef l1) (VRef l2) h = Some (v, h') →
  v = VRef N ∧
  ∃ fuel' vs,
    fuel = S fuel' ∧
    h' !! N = Some (OPlain (set_all (zip (keys h (VRef l2)) vs)
                              (merged_base h N (VRef l1)))) ∧
    Forall2 (λ k x, returned h (paired_at l1 l2 N)
                      (internalDeepMerge mergeArrays fuel')
                      (merge_target h (VRef l1) (VRef l2) k)
                      (get_prop h (VRef l2) k) x)
      (keys h (VRef l2)) vs.
Proof.
  intros Hne. rewrite deepMerge_unfold. cbn [isObject negb andb].
  intros ([v' st] & Hrun & ?)%bind_Some. simplify_eq.
  destruct fuel as [|fuel']; [done|]. cbn [internalDeepMerge] in Hrun.
  eapply (body_plain_plain h Hwf mergeArrays _
            (internalDeepMerge_ok h Hwf mergeArrays fuel'))
    in Hrun as (-> & _ & _ & vs & Hvs & Hall); [|apply inv_init|done..].
  split; [done|]. by exists fuel', vs.
Qed.

(** The value of the output at a key of the source. *)
Lemma deepMerge_source_key fuel v h' k :
  l1 ≠ l2 →
  deepMerge mergeArrays fuel (VRef l1) (VRef l2) h = Some (v, h') →
  k ∈ keys h (VRef l2) →
  ∃ fuel' x,
    hasOwn h' v k = true ∧ get_prop h' v k = x ∧
    returned h (paired_at l1 l2 N) (internalDeepMerge mergeArrays fuel')
      (merge_target h (VRef l1) (VRef l2) k) (get_prop h (VRef l2) k) x.
Proof.
  intros Hne Hrun Hk.
  destruct (deepMerge_plain_plain _ _ _ Hne Hrun)
    as (-> & fuel' & vs & -> & Hout & Hall).
  destruct (set_all_zip_in _ k _ _ (merged_base h N (VRef l1))
              (keys_nodup h Hwf (VRef l2)) Hall Hk) as (x & Hx & Hret).
  exists fuel', x. simpl. rewrite Hout, Hx. split_and!; try done.
Qed.

End PlainRoots.

(** ** Small facts used by the claims *)

Lemma hasOwn_keys h v k : k ∈ keys h v → hasOwn h v k = true.
Proof.
  destruct v as [| | | | | |l]; simpl; try by intros ?%elem_of_nil.
  destruct (h !! l) as [[es|ps|d]|]; try by intros ?%elem_of_nil.
  intros Hin. apply bool_decide_eq_true.
  destruct (prop_lookup k ps) eqn:E; [eauto|].
  by apply prop_lookup_None_keys in E.
Qed.



(** * The claims

    In the statements below the merge is run with more fuel than the
    number of table entries that the input heap admits
    ([length h + length h * length h]); it then returns, and the result is
    as stated. *)










(** C5.  The merge returns and has written to no node of its inputs:
    every cell of the heap it was called on holds the same object
    afterwards. *)
Theorem deepMerge_inputs_unchanged mergeArrays h target source fuel :
  wf_heap h →
  val_closed (length h) target → val_closed (length h) source →
  length h + length h * length h < fuel →
  ∃ v h',
    deepMerge mergeArrays fuel target source h = Some (v, h') ∧
    take (length h) h' = h ∧ ∀ l o, h !! l = Some o → h' !! l = Some o.
Proof.
  intros Hwf Ht Hs Hfuel.
  destruct (deepMerge_returns mergeArrays h Hwf target source Ht Hs fuel Hfuel)
    as (v & h' & Hrun).
  exists v, h'. split; [done|].
  destruct (deepMerge_frame mergeArrays h Hwf target source Ht Hs fuel v h' Hrun)
    as [k ->].
  split; [by rewrite take_app_length|].
  intros l o Hl. by apply lookup_app_l_Some.
Qed.

Lemma deepMerge_inputs_unchanged_witness :
  ∃ v h',
    deepMerge true 13 (VRef 0) (VRef 1) Examples.mutual_heap = Some (v, h') ∧
    take (length Examples.mutual_heap) h' = Examples.mutual_heap ∧
    ∀ l o, Examples.mutual_heap !! l = Some o → h' !! l = Some o.
Proof.
  apply (deepMerge_inputs_unchanged true Examples.mutual_heap
           (VRef 0) (VRef 1) 13).
  - solve_decidable.
  - simpl; lia.
  - simpl; lia.
  - simpl; lia.
Defined.











(** ** The order of the keys *)











(** ** Arrays *)

Lemma index_reads_elems h v :
  get_index h v <$> seq 0 (arr_length h v) = elems h v.
Proof.
  destruct v as [| | | | | |l]; try done. unfold get_index, arr_length, elems.
  destruct (h !! l) as [[es|ps|d]|]; try done.
  apply list_eq. intros i. rewrite list_lookup_fmap.
  destruct (decide (i < length es)) as [Hi|Hi].
  - rewrite lookup_seq_lt by done. simpl.
    destruct (lookup_lt_is_Some_2 es i Hi) as [x Hx]. by rewrite Hx.
  - rewrite lookup_seq_ge by lia. simpl. symmetry. apply lookup_ge_None. lia.
Qed.









(** * Further properties of the code *)

(** ** More on what a recursive call returns *)

Section ReturnedMore.
Variable mergeArrays : bool.
Variable h : heap.
Variable P : state → Prop.
Variable fuel : nat.
Local Abbreviation rec' := (internalDeepMerge mergeArrays fuel).

(** The identity fast path. *)
Lemma returned_same x v : returned h P rec' x x v → v = x.
Proof.
  intros (s & s' & _ & _ & Hrun).
  destruct fuel as [|fuel']; [done|]. simpl in Hrun. unfold mergeBody in Hrun.
  rewrite decide_True in Hrun by done. by simplify_eq.
Qed.

End ReturnedMore.

Lemma get_prop_ref_keys h v k l : get_prop h v k = VRef l → k ∈ keys h v.
Proof.
  destruct v as [| | | | | |l0]; simpl; try done.
  destruct (h !! l0) as [[es|ps|d]|]; try done.
  destruct (prop_lookup k ps) as [x|] eqn:E; [|done].
  intros _. by eapply prop_lookup_Some_keys.
Qed.


(** ** The pair table *)

(** X1.  [setPair] followed by [getPair] on the same pair gives the value
    set, the last one when the pair is set twice; every other pair, the
    clone table and the heap are as before. *)
Theorem pair_table_set_get a b o o' a' b' st :
  getPair a b (setPair a b o st) = Some o ∧
  getPair a b (setPair a b o' (setPair a b o st)) = Some o' ∧
  getPair a' b' (setPair a b o st)
  = (if decide (a' = a ∧ b' = b) then Some o else getPair a' b' st) ∧
  cloneMap (setPair a b o st) = cloneMap st ∧
  st_heap (setPair a b o st) = st_heap st.
Proof.
  split_and!; try done.
  - by rewrite getPair_setPair, decide_True.
  - by rewrite getPair_setPair, decide_True.
  - apply getPair_setPair.
Qed.

(** ** Branches that the claims leave aside *)

(** X2.  A node that the two plain-object roots hold under the same key is
    held by the output under that key as it is: the identity fast path
    neither clones nor merges it. *)
Theorem shared_branch_kept mergeArrays fuel h l1 l2 k l :
  wf_heap h → l1 < length h → l2 < length h →
  isPlainObject h (VRef l1) = true → isPlainObject h (VRef l2) = true →
  get_prop h (VRef l1) k = VRef l → get_prop h (VRef l2) k = VRef l →
  length h + length h * length h < fuel →
  ∃ v h',
    deepMerge mergeArrays fuel (VRef l1) (VRef l2) h = Some (v, h') ∧
    get_prop h' v k = VRef l.
Proof.
  intros Hwf Hl1 Hl2 Hp1 Hp2 Ha Hb Hfuel.
  destruct (deepMerge_returns mergeArrays h Hwf (VRef l1) (VRef l2) Hl1 Hl2
              fuel Hfuel) as (v & h' & Hrun).
  exists v, h'. split; [done|].
  destruct (decide (l1 = l2)) as [->|Hne].
  { by apply deepMerge_same in Hrun as [-> ->]. }
  destruct (deepMerge_source_key mergeArrays h Hwf l1 l2 Hl1 Hl2 Hp1 Hp2
              fuel v h' k Hne Hrun (get_prop_ref_keys _ _ _ _ Hb))
    as (fuel' & x & _ & <- & Hret).
  unfold merge_target in Hret.
  rewrite (hasOwn_keys _ _ _ (get_prop_ref_keys _ _ _ _ Ha)), Ha, Hb in Hret.
  simpl in Hret. by apply returned_same in Hret.
Qed.

Lemma shared_branch_kept_witness :
  ∃ v h',
    deepMerge true 13 (VRef 0) (VRef 1) Examples.shared_arr_heap
    = Some (v, h') ∧
    get_prop h' v "arr" = VRef 2.
Proof.
  apply (shared_branch_kept true 13 Examples.shared_arr_heap 0 1 "arr" 2).
  - solve_decidable.
  - simpl; lia.
  - simpl; lia.
  - reflexivity.
  - reflexivity.
  - reflexivity.
  - reflexivity.
  - simpl; lia.
Defined.

(** X3.  Objects that are neither arrays nor plain objects are never
    copied at the root.  When one of two distinct object roots is such an
    object and the source is not an array, the result is the source root
    itself; when the other root is not an object at all, the result is the
    opaque root itself.  Nothing is allocated in either case. *)
Theorem opaque_root_by_reference :
  (∀ mergeArrays fuel h l1 l2,
      l1 < length h → l2 < length h → l1 ≠ l2 →
      isArray h (VRef l2) = false →
      isPlainObject h (VRef l1) = false ∧ isArray h (VRef l1) = false
      ∨ isPlainObject h (VRef l2) = false →
      deepMerge mergeArrays (S fuel) (VRef l1) (VRef l2) h
      = Some (VRef l2, h)) ∧
  (∀ mergeArrays fuel h x l,
      isObject x = false → l < length h →
      isArray h (VRef l) = false → isPlainObject h (VRef l) = false →
      deepMerge mergeArrays (S fuel) x (VRef l) h = Some (VRef l, h) ∧
      deepMerge mergeArrays (S fuel) (VRef l) x h = Some (VRef l, h)).
Proof.
  split.
  - intros mergeArrays fuel h l1 l2 Hl1 Hl2 Hne Ha2 Hkind.
    rewrite deepMerge_unfold. cbn [isObject negb andb internalDeepMerge].
    destruct (isPlainObject h (VRef l2)) eqn:Hp2.
    + destruct Hkind as [[Hp1 Ha1]|?]; [|done].
      by rewrite (body_opaque_target h).
    + by rewrite (body_return_source h) by (done || apply inv_init).
  - intros mergeArrays fuel h x l Hx Hl Ha Hp.
    rewrite !deepMerge_unfold, Hx. cbn [isObject negb andb internalDeepMerge].
    by rewrite (body_return_source h) by (done || apply inv_init).
Qed.

Lemma opaque_root_by_reference_witness :
  deepMerge false 1 (VRef 1) (VRef 0) Examples.date_heap
  = Some (VRef 0, Examples.date_heap) ∧
  deepMerge false 1 VNull (VRef 3) Examples.date_heap
  = Some (VRef 3, Examples.date_heap) ∧
  deepMerge false 1 (VRef 3) VNull Examples.date_heap
  = Some (VRef 3, Examples.date_heap).
Proof.
  split.
  - apply (proj1 opaque_root_by_reference false 0 Examples.date_heap 1 0).
    + simpl; lia.
    + simpl; lia.
    + lia.
    + reflexivity.
    + left. split; reflexivity.
  - apply (proj2 opaque_root_by_reference false 0 Examples.date_heap VNull 3).
    + reflexivity.
    + simpl; lia.
    + reflexivity.
    + reflexivity.
Defined.











(** ** The answers that the tables hold *)

Lemma memo_grow h0 x1 x2 s s' v :
  tables_grow s s' → memo h0 x1 x2 s v → memo h0 x1 x2 s' v.
Proof.
  intros [Hc Hp]. unfold memo.
  destruct x2 as [| | | | | |l2]; try done.
  destruct (_ || _); [|done].
  destruct x1 as [| | | | | |l1];
    try (intros (c & -> & E); exists c; by auto).
  destruct (decide (l1 = l2)); [done|].
  destruct (pair_kept _ _ _); [|done].
  intros (c & -> & E); exists c; by auto.
Qed.


Lemma memo_same h0 x s : memo h0 x x s x.
Proof.
  unfold memo. destruct x as [| | | | | |l]; try done.
  destruct (_ || _); [|done]. by rewrite decide_True.
Qed.

Lemma memo_source h0 x1 x2 s :
  isArray h0 x2 = false → isPlainObject h0 x2 = false → memo h0 x1 x2 s x2.
Proof.
  intros Ha Hp. unfold memo. destruct x2 as [| | | | | |l2]; try done.
  by rewrite Ha, Hp.
Qed.

Lemma memo_clone h0 x1 l2 s c :
  isObject x1 = false →
  isArray h0 (VRef l2) || isPlainObject h0 (VRef l2) = true →
  cloneMap s !! l2 = Some c → memo h0 x1 (VRef l2) s (VRef c).
Proof.
  intros Hx Hk E. unfold memo. rewrite Hk.
  destruct x1; try done; by exists c.
Qed.

Lemma memo_pair h0 l1 l2 s c :
  l1 ≠ l2 → isArray h0 (VRef l2) || isPlainObject h0 (VRef l2) = true →
  pair_kept h0 l1 l2 = true → getPair l1 l2 s = Some c →
  memo h0 (VRef l1) (VRef l2) s (VRef c).
Proof.
  intros Hne Hk Hkept E. unfold memo.
  rewrite Hk, decide_False, Hkept by done. by exists c.
Qed.

Lemma memo_opaque_target h0 l1 l2 s :
  pair_kept h0 l1 l2 = false → memo h0 (VRef l1) (VRef l2) s (VRef l2).
Proof.
  intros Hkept. unfold memo. destruct (_ || _); [|done].
  destruct (decide (l1 = l2)); [done|]. by rewrite Hkept.
Qed.

Lemma pair_shape_tables h0 st st' :
  pairMap st' = pairMap st → pair_shape h0 st → pair_shape h0 st'.
Proof. intros E H a b o. unfold getPair. rewrite E. apply H. Qed.

Lemma pair_shape_setPair h0 a b o st :
  pair_kept h0 a b = true → pair_shape h0 st →
  pair_shape h0 (setPair a b o st).
Proof.
  intros Hk H a' b' o'. rewrite getPair_setPair.
  destruct (decide (a' = a ∧ b' = b)) as [[-> ->]|]; [done | apply H].
Qed.

Section LoopMemo.
Variable h0 : heap.
Local Abbreviation N := (length h0).
Hypothesis Hwf : wf_heap h0.
Variable rec : call.
Hypothesis Hrec : call_ok h0 rec.
Hypothesis Hmemo : call_memo h0 rec.

Lemma pushLoop_memo newArr src n :
  N ≤ newArr → val_closed N src →
  ∀ i st st' es,
    inv h0 st → pair_shape h0 st →
    st_heap st !! newArr = Some (OArray es) →
    pushLoop rec newArr src i n st = Some st' →
    pair_shape h0 st' ∧
    ∃ vs, st_heap st' !! newArr = Some (OArray (es ++ vs)) ∧
          Forall2 (λ x v, memo h0 VUndefined x st' v)
            (get_index h0 src <$> seq i n) vs.
Proof.
  intros Hnew Hsrc.
  induction n as [|n IH]; intros i st st' es Hinv Hsh Hes Hrun.
  - simpl in Hrun. simplify_eq. split; [done|].
    exists []. rewrite app_nil_r. split; [done | constructor].
  - simpl in Hrun.
    destruct (rec VUndefined _ st) as [[v st1]|] eqn:Hcall; [|done].
    rewrite (get_index_stable h0) in Hcall by (apply Hinv || done).
    destruct (Hrec VUndefined _ _ _ _ Hinv I (get_index_closed h0 Hwf src i)
                Hcall) as [Hinv1 Hext1].
    destruct (Hmemo VUndefined _ _ _ _ Hinv Hsh I
                (get_index_closed h0 Hwf src i) Hcall) as [Hsh1 Hm1].
    assert (st_heap st1 !! newArr = Some (OArray es)) as Hes1.
    { destruct Hext1 as (_ & Hsame & _). rewrite Hsame; [done| |].
      - by eapply lookup_lt_Some.
      - apply lookup_lt_Some in Hes. lia. }
    pose proof (push_touch newArr v (st_heap st1)) as T.
    pose proof (inv_touch h0 newArr (push newArr v) st1 Hinv1 Hnew T) as Hinv2.
    assert (st_heap (with_heap (push newArr v) st1) !! newArr
            = Some (OArray (es ++ [v]))) as Hes2.
    { simpl. by apply push_lookup_eq. }
    destruct (pushLoop_ok h0 Hwf rec Hrec newArr src n Hnew Hsrc _ _ _ _
                Hinv2 Hes2 Hrun) as (_ & Hfr & _).
    eapply IH in Hrun as (Hsh' & vs & Hvs & Hall); [|done|done|done].
    split; [done|]. exists (v :: vs).
    split; [by rewrite <-(assoc_L (++)) in Hvs|].
    simpl. constructor; [|done].
    eapply memo_grow; [|exact Hm1].
    eapply tables_grow_trans; [apply tables_grow_with_heap | apply Hfr].
Qed.

Lemma mergeKeysLoop_memo output obj1 obj2 ks :
  N ≤ output → val_closed N obj1 → val_closed N obj2 →
  ∀ st st' ps,
    inv h0 st → pair_shape h0 st →
    st_heap st !! output = Some (OPlain ps) →
    mergeKeysLoop rec output obj1 obj2 ks st = Some st' →
    pair_shape h0 st' ∧
    ∃ vs, st_heap st' !! output = Some (OPlain (set_all (zip ks vs) ps)) ∧
          Forall2 (λ k v, memo h0 (merge_target h0 obj1 obj2 k)
                            (get_prop h0 obj2 k) st' v) ks vs.
Proof.
  intros Hout H1 H2.
  induction ks as [|k ks IH]; intros st st' ps Hinv Hsh Hps Hrun.
  - simpl in Hrun. simplify_eq. split; [done|].
    exists []. split; [done | constructor].
  - rewrite mergeKeysLoop_cons in Hrun.
    destruct (rec _ _ st) as [[v st1]|] eqn:Hcall; [|done].
    rewrite (merge_target_stable h0), (get_prop_stable h0) in Hcall
      by (apply Hinv || done).
    destruct (Hrec _ _ _ _ _ Hinv (merge_target_closed h0 Hwf obj1 obj2 k)
                (get_prop_closed h0 Hwf obj2 k) Hcall) as [Hinv1 Hext1].
    destruct (Hmemo _ _ _ _ _ Hinv Hsh (merge_target_closed h0 Hwf obj1 obj2 k)
                (get_prop_closed h0 Hwf obj2 k) Hcall) as [Hsh1 Hm1].
    assert (st_heap st1 !! output = Some (OPlain ps)) as Hps1.
    { destruct Hext1 as (_ & Hsame & _). rewrite Hsame; [done| |].
      - by eapply lookup_lt_Some.
      - apply lookup_lt_Some in Hps. lia. }
    pose proof (set_prop_touch output k v (st_heap st1)) as T.
    pose proof (inv_touch h0 output (set_prop output k v) st1 Hinv1 Hout T)
      as Hinv2.
    assert (st_heap (with_heap (set_prop output k v) st1) !! output
            = Some (OPlain (prop_set k v ps))) as Hps2.
    { simpl. by apply set_prop_lookup_eq. }
    destruct (mergeKeysLoop_ok h0 Hwf rec Hrec output obj1 obj2 ks Hout H1 H2
                _ _ _ Hinv2 Hps2 Hrun) as (_ & Hfr & _).
    eapply IH in Hrun as (Hsh' & vs & Hvs & Hall); [|done|done|done].
    split; [done|]. exists (v :: vs). split; [done|].
    constructor; [|done].
    eapply memo_grow; [|exact Hm1].
    eapply tables_grow_trans; [apply tables_grow_with_heap | apply Hfr].
Qed.

Lemma cloneKeysLoop_memo result src ks :
  N ≤ result → val_closed N src →
  ∀ st st' ps,
    inv h0 st → pair_shape h0 st →
    st_heap st !! result = Some (OPlain ps) →
    cloneKeysLoop rec result src ks st = Some st' →
    pair_shape h0 st' ∧
    ∃ vs, st_heap st' !! result = Some (OPlain (set_all (zip ks vs) ps)) ∧
          Forall2 (λ k v, memo h0 VUndefined (get_prop h0 src k) st' v) ks vs.
Proof.
  intros Hres Hsrc st st' ps Hinv Hsh Hps Hrun.
  rewrite cloneKeysLoop_mergeKeysLoop in Hrun.
  by eapply (mergeKeysLoop_memo result VUndefined src ks) in Hrun.
Qed.
End LoopMemo.

(** ** Objects are filled when the call that made them returns *)

Lemma filled_frame h0 st st' l c :
  filled h0 st l c → st_heap st' !! c = st_heap st !! c →
  tables_grow st st' → filled h0 st' l c.
Proof.
  intros [Ha Hp] Hcell Hgrow. split; intros Hk.
  - destruct (Ha Hk) as (vs & Hvs & Hall). exists vs.
    split; [by rewrite Hcell|]. eapply Forall2_impl; [exact Hall|].
    intros x y. by apply memo_grow.
  - destruct (Hp Hk) as (vs & Hvs & Hall). exists vs.
    split; [by rewrite Hcell|]. eapply Forall2_impl; [exact Hall|].
    intros x y. by apply memo_grow.
Qed.

Lemma filled_pair_frame h0 mergeArrays st st' a b c :
  filled_pair h0 mergeArrays st a b c →
  st_heap st' !! c = st_heap st !! c →
  tables_grow st st' → filled_pair h0 mergeArrays st' a b c.
Proof.
  intros (H1 & H2 & H3) Hcell Hgrow. split_and!.
  - intros Hk. destruct (H1 Hk) as (vs & Hvs & Hall). exists vs.
    split; [by rewrite Hcell|]. eapply Forall2_impl; [exact Hall|].
    intros x y. by apply memo_grow.
  - intros Hk Hk'. destruct (H2 Hk Hk') as (vs & Hvs & Hall). exists vs.
    split; [by rewrite Hcell|]. eapply Forall2_impl; [exact Hall|].
    intros x y. by apply memo_grow.
  - intros Hk Hk'. destruct (H3 Hk Hk') as (vs & Hvs & Hall). exists vs.
    split; [by rewrite Hcell|]. eapply Forall2_impl; [exact Hall|].
    intros x y. by apply memo_grow.
Qed.

Lemma tables_fresh_refl st : tables_fresh st st.
Proof. split; intros; by left. Qed.

Lemma tables_fresh_trans st1 st2 st3 :
  tables_fresh st1 st2 → length (st_heap st1) ≤ length (st_heap st2) →
  tables_fresh st2 st3 → tables_fresh st1 st3.
Proof.
  intros [Hc12 Hp12] Hlen [Hc23 Hp23]. split.
  - intros l c E. destruct (Hc23 _ _ E) as [E2|?]; [by apply Hc12 | right; lia].
  - intros a b c E.
    destruct (Hp23 _ _ _ E) as [E2|?]; [by apply Hp12 | right; lia].
Qed.

Lemma step_done_refl h0 mergeArrays own st : step_done h0 mergeArrays own st st.
Proof. split_and!; [apply tables_fresh_refl | done | done | lia]. Qed.

Lemma tables_done_touch h0 mergeArrays own f busy st :
  touch own (st_heap st) (f (st_heap st)) → own ∈ busy →
  tables_done h0 mergeArrays busy st →
  tables_done h0 mergeArrays busy (with_heap f st).
Proof.
  intros (_ & Hother & _) Hown [Hdc Hdp].
  assert (∀ c, c ∉ busy → f (st_heap st) !! c = st_heap st !! c) as Hcell.
  { intros c Hc. apply Hother. by intros ->. }
  split.
  - intros l c E Hc. eapply filled_frame;
      [by apply (Hdc l c) | by apply Hcell | apply tables_grow_with_heap].
  - intros a b c E Hc. eapply filled_pair_frame;
      [by apply (Hdp a b c) | by apply Hcell | apply tables_grow_with_heap].
Qed.

(** One round of a loop: a recursive call, then a write to the object
    that the loop fills. *)
Lemma loop_step_done h0 mergeArrays own f st st1 st' :
  step_done h0 mergeArrays [] st st1 →
  length (st_heap st) ≤ length (st_heap st1) →
  touch own (st_heap st1) (f (st_heap st1)) →
  step_done h0 mergeArrays [own] (with_heap f st1) st' →
  step_done h0 mergeArrays [own] st st'.
Proof.
  intros (Hf1 & Hd1 & Hi1 & Hn1) Hlen T (Hf2 & Hd2 & Hi2 & Hn2). split_and!.
  - eapply tables_fresh_trans; [exact Hf1 | exact Hlen |].
    destruct T as (L & _). destruct Hf2 as [Hc2 Hp2].
    split; [intros l c E; destruct (Hc2 l c E) as [?|Hl]
           |intros a b c E; destruct (Hp2 a b c E) as [?|Hl]];
      try (by left); right; simpl in Hl; by rewrite L in Hl.
  - intros busy Hown Hd. apply Hd2; [done|].
    eapply tables_done_touch; [exact T| |].
    + apply Hown, list_elem_of_here.
    + apply Hd1; [|done]. by intros o ?%elem_of_nil.
  - intros Hi. apply Hi2, Hi1, Hi.
  - destruct T as (L & _).
    change (unmarked (length h0) (with_heap f st1))
      with (unmarked (length h0) st1) in Hn2.
    simpl in Hn2. rewrite L in Hn2. lia.
Qed.

Section LoopDone.
Variable h0 : heap.
Local Abbreviation N := (length h0).
Hypothesis Hwf : wf_heap h0.
Variable mergeArrays : bool.
Variable rec : call.
Hypothesis Hrec : call_ok h0 rec.
Hypothesis Hmemo : call_memo h0 rec.
Hypothesis Hdone : call_done h0 mergeArrays rec.

Lemma pushLoop_done newArr src n :
  N ≤ newArr → val_closed N src →
  ∀ i st st' es,
    inv h0 st → pair_shape h0 st →
    st_heap st !! newArr = Some (OArray es) →
    pushLoop rec newArr src i n st = Some st' →
    step_done h0 mergeArrays [newArr] st st'.
Proof.
  intros Hnew Hsrc.
  induction n as [|n IH]; intros i st st' es Hinv Hsh Hes Hrun.
  - simpl in Hrun. simplify_eq. apply step_done_refl.
  - simpl in Hrun.
    destruct (rec VUndefined _ st) as [[v st1]|] eqn:Hcall; [|done].
    rewrite (get_index_stable h0) in Hcall by (apply Hinv || done).
    pose proof (get_index_closed h0 Hwf src i) as Hcl.
    destruct (Hrec VUndefined _ _ _ _ Hinv I Hcl Hcall) as [Hinv1 Hext1].
    destruct (Hmemo VUndefined _ _ _ _ Hinv Hsh I Hcl Hcall) as [Hsh1 _].
    pose proof (Hdone VUndefined _ _ _ _ Hinv Hsh I Hcl Hcall) as Hstep.
    assert (st_heap st1 !! newArr = Some (OArray es)) as Hes1.
    { destruct Hext1 as (_ & Hsame & _). rewrite Hsame; [done| |].
      - by eapply lookup_lt_Some.
      - apply lookup_lt_Some in Hes. lia. }
    pose proof (push_touch newArr v (st_heap st1)) as T.
    pose proof (inv_touch h0 newArr (push newArr v) st1 Hinv1 Hnew T) as Hinv2.
    eapply loop_step_done; [exact Hstep | apply Hext1 | exact T |].
    eapply IH; [done | done | | done].
    simpl. by apply push_lookup_eq.
Qed.

Lemma mergeKeysLoop_done output obj1 obj2 ks :
  N ≤ output → val_closed N obj1 → val_closed N obj2 →
  ∀ st st' ps,
    inv h0 st → pair_shape h0 st →
    st_heap st !! output = Some (OPlain ps) →
    mergeKeysLoop rec output obj1 obj2 ks st = Some st' →
    step_done h0 mergeArrays [output] st st'.
Proof.
  intros Hout H1 H2.
  induction ks as [|k ks IH]; intros st st' ps Hinv Hsh Hps Hrun.
  - simpl in Hrun. simplify_eq. apply step_done_refl.
  - rewrite mergeKeysLoop_cons in Hrun.
    destruct (rec _ _ st) as [[v st1]|] eqn:Hcall; [|done].
    rewrite (merge_target_stable h0), (get_prop_stable h0) in Hcall
      by (apply Hinv || done).
    pose proof (merge_target_closed h0 Hwf obj1 obj2 k) as Hcl1.
    pose proof (get_prop_closed h0 Hwf obj2 k) as Hcl2.
    destruct (Hrec _ _ _ _ _ Hinv Hcl1 Hcl2 Hcall) as [Hinv1 Hext1].
    destruct (Hmemo _ _ _ _ _ Hinv Hsh Hcl1 Hcl2 Hcall) as [Hsh1 _].
    pose proof (Hdone _ _ _ _ _ Hinv Hsh Hcl1 Hcl2 Hcall) as Hstep.
    assert (st_heap st1 !! output = Some (OPlain ps)) as Hps1.
    { destruct Hext1 as (_ & Hsame & _). rewrite Hsame; [done| |].
      - by eapply lookup_lt_Some.
      - apply lookup_lt_Some in Hps. lia. }
    pose proof (set_prop_touch output k v (st_heap st1)) as T.
    pose proof (inv_touch h0 output (set_prop output k v) st1 Hinv1 Hout T)
      as Hinv2.
    eapply loop_step_done; [exact Hstep | apply Hext1 | exact T |].
    eapply IH; [done | done | | done].
    simpl. by apply set_prop_lookup_eq.
Qed.

Lemma cloneKeysLoop_done result src ks :
  N ≤ result → val_closed N src →
  ∀ st st' ps,
    inv h0 st → pair_shape h0 st →
    st_heap st !! result = Some (OPlain ps) →
    cloneKeysLoop rec result src ks st = Some st' →
    step_done h0 mergeArrays [result] st st'.
Proof.
  intros Hres Hsrc st st' ps Hinv Hsh Hps Hrun.
  rewrite cloneKeysLoop_mergeKeysLoop in Hrun.
  by eapply (mergeKeysLoop_done result VUndefined src ks) in Hrun.
Qed.
End LoopDone.

(** The table side of a branch that builds an object: the state [st1]
    in which the loop starts has one more cell than [st], the new object
    [out], and differs from [st] in the entries for [out]; the entries for
    [out] are filled when the loop has run. *)
Lemma entry_done h0 mergeArrays st st1 st' :
  inv h0 st → extends st st1 →
  length (st_heap st1) = S (length (st_heap st)) →
  (∀ l c, cloneMap st1 !! l = Some c →
          cloneMap st !! l = Some c ∨ c = length (st_heap st)) →
  (∀ a b c, getPair a b st1 = Some c →
            getPair a b st = Some c ∨ c = length (st_heap st)) →
  (∀ l l', cloneMap st1 !! l = Some (length (st_heap st)) →
           cloneMap st1 !! l' = Some (length (st_heap st)) → l = l') →
  unmarked (length h0) st1 < unmarked (length h0) st →
  step_done h0 mergeArrays [length (st_heap st)] st1 st' →
  (∀ l, cloneMap st1 !! l = Some (length (st_heap st)) →
        filled h0 st' l (length (st_heap st))) →
  (∀ a b, getPair a b st1 = Some (length (st_heap st)) →
          filled_pair h0 mergeArrays st' a b (length (st_heap st))) →
  step_done h0 mergeArrays [] st st'.
Proof.
  set (out := length (st_heap st)).
  intros Hinv (_ & Hcells & Hgrow) Hlen1 Hnc Hnp Hone Hlt
    ([Hfc Hfp] & Hd1 & Hi1 & Hn1) Hfillc Hfillp.
  assert (∀ l c, cloneMap st !! l = Some c → c < out) as Hltc.
  { intros l c E.
    destruct (inv_clone _ _ Hinv _ _ E) as (_ & o1 & o2 & _ & Ho2 & _).
    by apply lookup_lt_Some in Ho2. }
  assert (∀ a b c, getPair a b st = Some c → c < out) as Hltp.
  { intros a b c E.
    destruct (inv_pair _ _ Hinv _ _ _ E) as (_ & o1 & o2 & _ & Ho2 & _).
    by apply lookup_lt_Some in Ho2. }
  split_and!.
  - split.
    + intros l c E. destruct (Hfc _ _ E) as [E1|?]; [|right; lia].
      destruct (Hnc _ _ E1) as [?| ->]; [by left | by right].
    + intros a b c E. destruct (Hfp _ _ _ E) as [E1|?]; [|right; lia].
      destruct (Hnp _ _ _ E1) as [?| ->]; [by left | by right].
  - intros busy _ [Hdc Hdp].
    assert (tables_done h0 mergeArrays (out :: busy) st') as [Hdc' Hdp'].
    { apply Hd1.
      { intros o ->%list_elem_of_singleton. apply list_elem_of_here. }
      split.
      - intros l c E Hc. apply not_elem_of_cons in Hc as [Hne Hc].
        destruct (Hnc _ _ E) as [E0|?]; [|done].
        eapply filled_frame; [by apply (Hdc l c) | | done].
        apply Hcells; [by eapply Hltc | apply Hltc in E0; lia].
      - intros a b c E Hc. apply not_elem_of_cons in Hc as [Hne Hc].
        destruct (Hnp _ _ _ E) as [E0|?]; [|done].
        eapply filled_pair_frame; [by apply (Hdp a b c) | | done].
        apply Hcells; [by eapply Hltp | apply Hltp in E0; lia]. }
    split.
    + intros l c E Hc. destruct (decide (c = out)) as [->|Hne].
      * destruct (Hfc _ _ E) as [E1|?]; [by apply Hfillc | lia].
      * apply Hdc'; [done|]. by apply not_elem_of_cons.
    + intros a b c E Hc. destruct (decide (c = out)) as [->|Hne].
      * destruct (Hfp _ _ _ E) as [E1|?]; [by apply Hfillp | lia].
      * apply Hdp'; [done|]. by apply not_elem_of_cons.
  - intros Hi. apply Hi1. intros l l' c E E'.
    destruct (Hnc _ _ E) as [E0| ->].
    + destruct (Hnc _ _ E') as [E0'| ->]; [by eapply Hi|].
      apply Hltc in E0. lia.
    + by apply Hone.
  - fold out. lia.
Qed.

(** The entry that the clone path makes. *)
Lemma clone_entry_done h0 mergeArrays st l2 o st' :
  inv h0 st → l2 < length h0 → cloneMap st !! l2 = None →
  extends st (cloneMap_set l2 (length (st_heap st)) (alloc o st).2) →
  step_done h0 mergeArrays [length (st_heap st)]
    (cloneMap_set l2 (length (st_heap st)) (alloc o st).2) st' →
  filled h0 st' l2 (length (st_heap st)) →
  step_done h0 mergeArrays [] st st'.
Proof.
  intros Hinv Hl2 Hnone Hext Hstep Hfill.
  assert (∀ l c, cloneMap st !! l = Some c → c < length (st_heap st)) as Hltc.
  { intros l c E.
    destruct (inv_clone _ _ Hinv _ _ E) as (_ & o1 & o2 & _ & Ho2 & _).
    by apply lookup_lt_Some in Ho2. }
  assert (∀ l, cloneMap (cloneMap_set l2 (length (st_heap st)) (alloc o st).2)
                 !! l = Some (length (st_heap st)) → l = l2) as Hnew.
  { intros l. simpl. rewrite lookup_insert_Some.
    intros [[<- _]|[_ E]]; [done|]. apply Hltc in E. lia. }
  eapply entry_done; [done | exact Hext | | | | | | exact Hstep | |].
  - simpl. rewrite length_app. simpl. lia.
  - intros l c. simpl. rewrite lookup_insert_Some.
    intros [[_ <-]|[_ E]]; [by right | by left].
  - intros a b c E. by left.
  - intros l l' E E'. by rewrite (Hnew _ E), (Hnew _ E').
  - by apply alloc_clone_unmarked.
  - intros l E. by rewrite (Hnew _ E).
  - intros a b E. change (getPair a b st = Some (length (st_heap st))) in E.
    destruct (inv_pair _ _ Hinv _ _ _ E) as (_ & o1 & o2 & _ & Ho2 & _).
    apply lookup_lt_Some in Ho2. lia.
Qed.

(** The entry that the merge of a pair makes; [st1] is the state in which
    the loop over the source starts. *)
Lemma pair_entry_done h0 mergeArrays st l1 l2 st1 st' :
  inv h0 st → l1 < length h0 → l2 < length h0 → getPair l1 l2 st = None →
  extends st st1 →
  length (st_heap st1) = S (length (st_heap st)) →
  cloneMap st1 = cloneMap st →
  pairMap st1 = pairMap (setPair l1 l2 (length (st_heap st)) st) →
  step_done h0 mergeArrays [length (st_heap st)] st1 st' →
  filled_pair h0 mergeArrays st' l1 l2 (length (st_heap st)) →
  step_done h0 mergeArrays [] st st'.
Proof.
  intros Hinv Hl1 Hl2 Hnone Hext Hlen Hcm Hpm Hstep Hfill.
  assert (∀ a b, getPair a b st1
                 = getPair a b (setPair l1 l2 (length (st_heap st)) st)) as Hgp.
  { intros a b. unfold getPair. by rewrite Hpm. }
  assert (∀ a b c, getPair a b st = Some c → c < length (st_heap st)) as Hltp.
  { intros a b c E.
    destruct (inv_pair _ _ Hinv _ _ _ E) as (_ & o1 & o2 & _ & Ho2 & _).
    by apply lookup_lt_Some in Ho2. }
  assert (∀ l, cloneMap st1 !! l = Some (length (st_heap st)) → False) as Hno.
  { intros l. rewrite Hcm. intros E.
    destruct (inv_clone _ _ Hinv _ _ E) as (_ & o1 & o2 & _ & Ho2 & _).
    apply lookup_lt_Some in Ho2. lia. }
  eapply entry_done; [done | exact Hext | done | | | | | exact Hstep | |].
  - intros l c. rewrite Hcm. by left.
  - intros a b c. rewrite Hgp, getPair_setPair.
    destruct (decide (a = l1 ∧ b = l2)); [intros [= <-]; by right | by left].
  - intros l l' E. by destruct (Hno l).
  - apply (unmarked_pair_lt _ _ _ l1 l2); [|done|done|done|].
    + destruct Hext as (_ & _ & Hgrow). exact Hgrow.
    + rewrite Hgp, getPair_setPair, decide_True by done. eauto.
  - intros l E. by destruct (Hno l).
  - intros a b. rewrite Hgp, getPair_setPair.
    destruct (decide (a = l1 ∧ b = l2)) as [[-> ->]|]; [done|].
    intros E. apply Hltp in E. lia.
Qed.

Section BodyTables.
Variable h0 : heap.
Local Abbreviation N := (length h0).
Hypothesis Hwf : wf_heap h0.
Variable mergeArrays : bool.
Variable rec : call.
Hypothesis Hrec : call_ok h0 rec.
Hypothesis Hmemo : call_memo h0 rec.
Hypothesis Hdone : call_done h0 mergeArrays rec.

Lemma body_clone_array_memo l2 st v st' :
  inv h0 st → pair_shape h0 st → l2 < N → cloneMap st !! l2 = None →
  isArray h0 (VRef l2) = true →
  mergeBody mergeArrays rec VUndefined (VRef l2) st = Some (v, st') →
  pair_shape h0 st' ∧ v = VRef (length (st_heap st)) ∧
  cloneMap st' !! l2 = Some (length (st_heap st)) ∧
  (∃ vs, st_heap st' !! length (st_heap st) = Some (OArray vs) ∧
         Forall2 (λ x y, memo h0 VUndefined x st' y)
           (elems h0 (VRef l2)) vs) ∧
  step_done h0 mergeArrays [] st st'.
Proof.
  intros Hinv Hsh Hl2 Hnone Harr Hrun.
  unfold mergeBody in Hrun. rewrite decide_False, Hnone in Hrun by done.
  rewrite (isArray_stable h0) in Hrun by (apply Hinv || done).
  rewrite Harr in Hrun. cbn [alloc] in Hrun.
  change (with_heap _ st) with (alloc (OArray []) st).2 in Hrun.
  destruct (isArray_true _ _ Harr) as [es0 Hes0].
  destruct (alloc_clone_step h0 st l2 (OArray []) (OArray es0) Hinv Hnone)
    as (Hinv1 & Hext1 & Hnew); [by rewrite (inv_input _ _ Hinv)|done..|].
  rewrite (arr_length_stable h0) in Hrun by (apply Hinv1 || done).
  destruct (pushLoop _ _ _ _ _ _) as [st2|] eqn:Hloop; simpl in Hrun; [|done].
  simplify_eq.
  assert (N ≤ length (st_heap st)) as Hout by apply Hinv.
  assert (pair_shape h0 (cloneMap_set l2 (length (st_heap st))
                           (alloc (OArray []) st).2)) as Hsh1
    by (by eapply pair_shape_tables; [|exact Hsh]).
  destruct (pushLoop_ok h0 Hwf rec Hrec _ (VRef l2) _ Hout Hl2 _ _ _ _
              Hinv1 Hnew Hloop) as (_ & Hfr & _).
  pose proof (pushLoop_done h0 Hwf mergeArrays rec Hrec Hmemo Hdone _
                (VRef l2) _ Hout Hl2 _ _ _ _ Hinv1 Hsh1 Hnew Hloop) as Hstep.
  eapply (pushLoop_memo h0 Hwf rec Hrec Hmemo) in Hloop
    as (Hsh' & vs & Hvs & Hall); [|done..].
  rewrite index_reads_elems in Hall.
  split_and!; [done | done | by eapply cloned_at_grow, Hfr | by exists vs |].
  eapply clone_entry_done; [done | done | done | exact Hext1 | exact Hstep |].
  split; intros Hk.
  - by exists vs.
  - destruct (isPlainObject_true _ _ Hk) as [ps E]. congruence.
Qed.

Lemma body_clone_plain_memo l2 st v st' :
  inv h0 st → pair_shape h0 st → l2 < N → cloneMap st !! l2 = None →
  isPlainObject h0 (VRef l2) = true →
  mergeBody mergeArrays rec VUndefined (VRef l2) st = Some (v, st') →
  pair_shape h0 st' ∧ v = VRef (length (st_heap st)) ∧
  cloneMap st' !! l2 = Some (length (st_heap st)) ∧
  (∃ vs, st_heap st' !! length (st_heap st)
         = Some (OPlain (set_all (zip (keys h0 (VRef l2)) vs) [])) ∧
         Forall2 (λ k y, memo h0 VUndefined (get_prop h0 (VRef l2) k) st' y)
           (keys h0 (VRef l2)) vs) ∧
  step_done h0 mergeArrays [] st st'.
Proof.
  intros Hinv Hsh Hl2 Hnone Hplain Hrun.
  unfold mergeBody in Hrun. rewrite decide_False, Hnone in Hrun by done.
  rewrite (isArray_stable h0), (isPlainObject_stable h0) in Hrun
    by (apply Hinv || done).
  destruct (isPlainObject_true _ _ Hplain) as [ps0 Hps0].
  assert (isArray h0 (VRef l2) = false) as Hna by (simpl; by rewrite Hps0).
  rewrite Hna, Hplain in Hrun. cbn [alloc] in Hrun.
  change (with_heap _ st) with (alloc (OPlain []) st).2 in Hrun.
  destruct (alloc_clone_step h0 st l2 (OPlain []) (OPlain ps0) Hinv Hnone)
    as (Hinv1 & Hext1 & Hnew); [by rewrite (inv_input _ _ Hinv)|done..|].
  rewrite (keys_stable h0) in Hrun by (apply Hinv1 || done).
  destruct (cloneKeysLoop _ _ _ _ _) as [st2|] eqn:Hloop; simpl in Hrun; [|done].
  simplify_eq.
  assert (N ≤ length (st_heap st)) as Hout by apply Hinv.
  assert (pair_shape h0 (cloneMap_set l2 (length (st_heap st))
                           (alloc (OPlain []) st).2)) as Hsh1
    by (by eapply pair_shape_tables; [|exact Hsh]).
  destruct (cloneKeysLoop_ok h0 Hwf rec Hrec _ (VRef l2) _ Hout Hl2 _ _ _
              Hinv1 Hnew Hloop) as (_ & Hfr & _).
  pose proof (cloneKeysLoop_done h0 Hwf mergeArrays rec Hrec Hmemo Hdone _
                (VRef l2) _ Hout Hl2 _ _ _ Hinv1 Hsh1 Hnew Hloop) as Hstep.
  eapply (cloneKeysLoop_memo h0 Hwf rec Hrec Hmemo) in Hloop
    as (Hsh' & vs & Hvs & Hall); [|done..].
  split_and!; [done | done | by eapply cloned_at_grow, Hfr | by exists vs |].
  eapply clone_entry_done; [done | done | done | exact Hext1 | exact Hstep |].
  split; intros Hk; [congruence | by exists vs].
Qed.

Lemma body_pair_array_memo l1 l2 st v st' :
  inv h0 st → pair_shape h0 st → l1 < N → l2 < N → l1 ≠ l2 →
  getPair l1 l2 st = None → isArray h0 (VRef l2) = true →
  mergeBody mergeArrays rec (VRef l1) (VRef l2) st = Some (v, st') →
  pair_shape h0 st' ∧ v = VRef (length (st_heap st)) ∧
  getPair l1 l2 st' = Some (length (st_heap st)) ∧
  (∃ vs, st_heap st' !! length (st_heap st) = Some (OArray vs) ∧
         Forall2 (λ x y, memo h0 VUndefined x st' y)
           (pushed h0 mergeArrays l1 l2) vs) ∧
  step_done h0 mergeArrays [] st st'.
Proof.
  intros Hinv Hsh Hl1 Hl2 Hne Hnone Harr Hrun.
  unfold mergeBody in Hrun. rewrite decide_False, Hnone in Hrun by congruence.
  rewrite (isArray_stable h0 _ (inv_input _ _ Hinv) (VRef l2)) in Hrun by done.
  rewrite (isArray_stable h0 _ (inv_input _ _ Hinv) (VRef l1)) in Hrun by done.
  rewrite Harr in Hrun.
  destruct (isArray_true _ _ Harr) as [es0 Hes0].
  destruct (alloc_pair_step h0 st l1 l2 (OArray []) (OArray es0) Hinv Hnone)
    as (Hinv1 & Hext1 & Hnew); [by rewrite (inv_input _ _ Hinv)|done..|].
  assert (N ≤ length (st_heap st)) as Hout by apply Hinv.
  set (out := length (st_heap st)) in *.
  set (st1 := setPair l1 l2 out (alloc (OArray []) st).2) in *.
  assert (pair_shape h0 st1) as Hsh1.
  { apply pair_shape_setPair; [by unfold pair_kept; rewrite Harr|].
    by eapply pair_shape_tables; [|exact Hsh]. }
  assert (length (st_heap st1) = S out) as Hlen1.
  { subst st1 out. simpl. rewrite length_app. simpl. lia. }
  assert (∃ vs,
    pair_shape h0 st' ∧ v = VRef out ∧ tables_grow st1 st' ∧
    step_done h0 mergeArrays [out] st1 st' ∧
    st_heap st' !! out = Some (OArray vs) ∧
    Forall2 (λ x y, memo h0 VUndefined x st' y) (pushed h0 mergeArrays l1 l2) vs)
    as (vs & Hsh' & -> & Hgrow & Hstep & Hvs & Hall).
  { unfold pushed.
    destruct (isArray h0 (VRef l1)) eqn:Harr1; cbn [negb alloc] in Hrun;
      change (with_heap _ st) with (alloc (OArray []) st).2 in Hrun;
      fold out st1 in Hrun; [destruct mergeArrays|]; cbn [andb].
    - apply bind_Some in Hrun as (st2 & Hloop1 & Hrun).
      rewrite (arr_length_stable h0) in Hloop1 by (apply Hinv1 || done).
      destruct (pushLoop_ok h0 Hwf rec Hrec _ (VRef l1) _ Hout Hl1 _ _ _ _
                  Hinv1 Hnew Hloop1) as (Hinv2 & Hfr2 & _).
      pose proof (pushLoop_done h0 Hwf true rec Hrec Hmemo Hdone _
                    (VRef l1) _ Hout Hl1 _ _ _ _ Hinv1 Hsh1 Hnew Hloop1)
        as (Hf2 & Hd2 & Hi2 & Hn2).
      eapply (pushLoop_memo h0 Hwf rec Hrec Hmemo) in Hloop1
        as (Hsh2 & vs1 & Hvs1 & Hall1); [|done..].
      apply bind_Some in Hrun as (st3 & Hloop2 & Hrun).
      rewrite (arr_length_stable h0) in Hloop2 by (apply Hinv2 || done).
      simplify_eq.
      destruct (pushLoop_ok h0 Hwf rec Hrec _ (VRef l2) _ Hout Hl2 _ _ _ _
                  Hinv2 Hvs1 Hloop2) as (_ & Hfr3 & _).
      pose proof (pushLoop_done h0 Hwf true rec Hrec Hmemo Hdone _
                    (VRef l2) _ Hout Hl2 _ _ _ _ Hinv2 Hsh2 Hvs1 Hloop2)
        as (Hf3 & Hd3 & Hi3 & Hn3).
      eapply (pushLoop_memo h0 Hwf rec Hrec Hmemo) in Hloop2
        as (Hsh3 & vs2 & Hvs2 & Hall2); [|done..].
      exists (vs1 ++ vs2). split_and!; [done | done | | | done |].
      + eapply tables_grow_trans; [apply Hfr2 | apply Hfr3].
      + split_and!.
        * eapply tables_fresh_trans; [exact Hf2 | apply Hfr2 | exact Hf3].
        * intros busy Hown Hd. apply Hd3, Hd2; done.
        * intros Hi. apply Hi3, Hi2, Hi.
        * lia.
      + apply Forall2_app; [|done].
        eapply Forall2_impl; [exact Hall1|]. intros x y. apply memo_grow, Hfr3.
    - apply bind_Some in Hrun as (st2 & Hloop & Hrun).
      rewrite (arr_length_stable h0) in Hloop by (apply Hinv1 || done).
      simplify_eq.
      destruct (pushLoop_ok h0 Hwf rec Hrec _ (VRef l2) _ Hout Hl2 _ _ _ _
                  Hinv1 Hnew Hloop) as (_ & Hfr & _).
      pose proof (pushLoop_done h0 Hwf false rec Hrec Hmemo Hdone _
                    (VRef l2) _ Hout Hl2 _ _ _ _ Hinv1 Hsh1 Hnew Hloop)
        as Hstep.
      eapply (pushLoop_memo h0 Hwf rec Hrec Hmemo) in Hloop
        as (Hsh' & vs & Hvs & Hall); [|done..].
      exists vs. split_and!; [done | done | apply Hfr | done | done | done].
    - apply bind_Some in Hrun as (st2 & Hloop & Hrun).
      rewrite (arr_length_stable h0) in Hloop by (apply Hinv1 || done).
      simplify_eq.
      destruct (pushLoop_ok h0 Hwf rec Hrec _ (VRef l2) _ Hout Hl2 _ _ _ _
                  Hinv1 Hnew Hloop) as (_ & Hfr & _).
      pose proof (pushLoop_done h0 Hwf mergeArrays rec Hrec Hmemo Hdone _
                    (VRef l2) _ Hout Hl2 _ _ _ _ Hinv1 Hsh1 Hnew Hloop)
        as Hstep.
      eapply (pushLoop_memo h0 Hwf rec Hrec Hmemo) in Hloop
        as (Hsh' & vs & Hvs & Hall); [|done..].
      rewrite andb_false_r. exists vs.
      split_and!; [done | done | apply Hfr | done | done | done]. }
  split_and!; [done | done | | by exists vs |].
  - by apply (paired_at_grow l1 l2 out (alloc (OArray []) st).2).
  - eapply (pair_entry_done h0 mergeArrays st l1 l2 st1);
      [done | done | done | done | exact Hext1 | done | done | done
      |exact Hstep |].
    split_and!.
    + intros _. by exists vs.
    + intros _ Hk. destruct (isPlainObject_true _ _ Hk) as [ps E]. congruence.
    + intros _ Hk. destruct (isPlainObject_true _ _ Hk) as [ps E]. congruence.
Qed.

Lemma body_array_plain_memo l1 l2 st v st' :
  inv h0 st → pair_shape h0 st → l1 < N → l2 < N → l1 ≠ l2 →
  getPair l1 l2 st = None →
  isArray h0 (VRef l1) = true → isPlainObject h0 (VRef l2) = true →
  mergeBody mergeArrays rec (VRef l1) (VRef l2) st = Some (v, st') →
  pair_shape h0 st' ∧ v = VRef (length (st_heap st)) ∧
  getPair l1 l2 st' = Some (length (st_heap st)) ∧
  (∃ vs, st_heap st' !! length (st_heap st)
         = Some (OPlain (set_all (zip (keys h0 (VRef l2)) vs) [])) ∧
         Forall2 (λ k y, memo h0 VUndefined (get_prop h0 (VRef l2) k) st' y)
           (keys h0 (VRef l2)) vs) ∧
  step_done h0 mergeArrays [] st st'.
Proof.
  intros Hinv Hsh Hl1 Hl2 Hne Hnone Harr1 Hplain Hrun.
  unfold mergeBody in Hrun. rewrite decide_False, Hnone in Hrun by congruence.
  rewrite (isArray_stable h0 _ (inv_input _ _ Hinv) (VRef l2)) in Hrun by done.
  rewrite (isArray_stable h0 _ (inv_input _ _ Hinv) (VRef l1)) in Hrun by done.
  rewrite (isPlainObject_stable h0 _ (inv_input _ _ Hinv) (VRef l2)) in Hrun
    by done.
  destruct (isPlainObject_true _ _ Hplain) as [ps0 Hps0].
  destruct (isArray_true _ _ Harr1) as [es1 Hes1].
  assert (isArray h0 (VRef l2) = false) as Hna by (simpl; by rewrite Hps0).
  rewrite Hna, Harr1, Hplain in Hrun. cbn [andb alloc] in Hrun.
  change (with_heap _ st) with (alloc (OPlain []) st).2 in Hrun.
  destruct (alloc_pair_step h0 st l1 l2 (OPlain []) (OPlain ps0) Hinv Hnone)
    as (Hinv1 & Hext1 & Hnew); [by rewrite (inv_input _ _ Hinv)|done..|].
  assert (N ≤ length (st_heap st)) as Hout by apply Hinv.
  set (out := length (st_heap st)) in *.
  set (st1 := setPair l1 l2 out (alloc (OPlain []) st).2) in *.
  assert (pair_shape h0 st1) as Hsh1.
  { apply pair_shape_setPair.
    - unfold pair_kept. by rewrite Harr1, orb_true_r.
    - by eapply pair_shape_tables; [|exact Hsh]. }
  assert (length (st_heap st1) = S out) as Hlen1.
  { subst st1 out. simpl. rewrite length_app. simpl. lia. }
  apply bind_Some in Hrun as (st2 & Hloop & Hrun).
  rewrite (keys_stable h0) in Hloop by (apply Hinv1 || done).
  simplify_eq.
  destruct (cloneKeysLoop_ok h0 Hwf rec Hrec _ (VRef l2) _ Hout Hl2 _ _ _
              Hinv1 Hnew Hloop) as (_ & Hfr & _).
  pose proof (cloneKeysLoop_done h0 Hwf mergeArrays rec Hrec Hmemo Hdone _
                (VRef l2) _ Hout Hl2 _ _ _ Hinv1 Hsh1 Hnew Hloop) as Hstep.
  eapply (cloneKeysLoop_memo h0 Hwf rec Hrec Hmemo) in Hloop
    as (Hsh' & vs & Hvs & Hall); [|done..].
  split_and!; [done | done | | by exists vs |].
  - apply (paired_at_grow l1 l2 out (alloc (OPlain []) st).2), Hfr.
  - eapply (pair_entry_done h0 mergeArrays st l1 l2 st1);
      [done | done | done | done | exact Hext1 | done | done | done
      |exact Hstep |].
    split_and!.
    + intros Hk. congruence.
    + intros _ _. by exists vs.
    + intros Hk. destruct (isPlainObject_true _ _ Hk) as [ps E]. congruence.
Qed.

Lemma body_plain_plain_memo l1 l2 st v st' :
  inv h0 st → pair_shape h0 st → l1 < N → l2 < N → l1 ≠ l2 →
  getPair l1 l2 st = None →
  isPlainObject h0 (VRef l1) = true → isPlainObject h0 (VRef l2) = true →
  mergeBody mergeArrays rec (VRef l1) (VRef l2) st = Some (v, st') →
  pair_shape h0 st' ∧ v = VRef (length (st_heap st)) ∧
  getPair l1 l2 st' = Some (length (st_heap st)) ∧
  (∃ vs, st_heap st' !! length (st_heap st)
         = Some (OPlain (set_all (zip (keys h0 (VRef l2)) vs)
                           (merged_base h0 (length (st_heap st)) (VRef l1)))) ∧
         Forall2 (λ k y, memo h0 (merge_target h0 (VRef l1) (VRef l2) k)
                           (get_prop h0 (VRef l2) k) st' y)
           (keys h0 (VRef l2)) vs) ∧
  step_done h0 mergeArrays [] st st'.
Proof.
  intros Hinv Hsh Hl1 Hl2 Hne Hnone Hplain1 Hplain2 Hrun.
  unfold mergeBody in Hrun. rewrite decide_False, Hnone in Hrun by congruence.
  rewrite (isArray_stable h0 _ (inv_input _ _ Hinv) (VRef l2)) in Hrun by done.
  rewrite (isArray_stable h0 _ (inv_input _ _ Hinv) (VRef l1)) in Hrun by done.
  rewrite (isPlainObject_stable h0 _ (inv_input _ _ Hinv) (VRef l2)) in Hrun
    by done.
  rewrite (isPlainObject_stable h0 _ (inv_input _ _ Hinv) (VRef l1)) in Hrun
    by done.
  destruct (isPlainObject_true _ _ Hplain1) as [ps1 Hps1].
  destruct (isPlainObject_true _ _ Hplain2) as [ps2 Hps2].
  assert (isArray h0 (VRef l2) = false) as Hna2 by (simpl; by rewrite Hps2).
  assert (isArray h0 (VRef l1) = false) as Hna1 by (simpl; by rewrite Hps1).
  rewrite Hna2, Hna1, Hplain1, Hplain2 in Hrun.
  cbn [andb orb negb alloc] in Hrun.
  change (with_heap (λ h, h ++ [OPlain []]) st)
    with (alloc (OPlain []) st).2 in Hrun.
  set (out := length (st_heap st)) in *.
  set (sta := (alloc (OPlain []) st).2) in *.
  pose proof (inv_alloc h0 (OPlain []) st Hinv) as Hinva. fold sta in Hinva.
  assert (N ≤ out) as Hout by apply Hinv.
  rewrite (keys_stable h0 _ (inv_input _ _ Hinva) (VRef l1)) in Hrun by done.
  assert (st_heap sta !! out = Some (OPlain [])) as Hnewa.
  { subst sta out. simpl. rewrite lookup_app_r by lia. by rewrite Nat.sub_diag. }
  destruct (copyKeysLoop_spec out (VRef l1) (keys h0 (VRef l1))
              ltac:(intros ?; simplify_eq; lia) _ _ Hnewa) as [Tb Hnewb].
  set (stb := with_heap (copyKeysLoop out (VRef l1) (keys h0 (VRef l1))) sta)
    in *.
  pose proof (inv_touch h0 out _ sta Hinva Hout Tb) as Hinvb. fold stb in Hinvb.
  assert (copy_props (st_heap sta) (VRef l1) (keys h0 (VRef l1)) []
          = copy_props h0 (VRef l1) (keys h0 (VRef l1)) []) as Ecopy.
  { unfold copy_props. f_equal. apply list_fmap_ext. intros i k _. f_equal.
    apply (get_prop_stable h0); [apply Hinva | done]. }
  rewrite Ecopy in Hnewb.
  set (stc := setPair l1 l2 out stb) in *.
  assert (inv h0 stc) as Hinvc.
  { apply inv_setPair; [done|]. split; [done|].
    exists (OPlain ps2), (OPlain (copy_props h0 (VRef l1) (keys h0 (VRef l1)) [])).
    split_and!; try done. by rewrite (inv_input _ _ Hinvb). }
  destruct (fixSelfLoop_spec out (VRef l1) (keys h0 (VRef l1)) (st_heap stc) _
              Hnewb) as [Td Hnewd].
  set (std := with_heap (fixSelfLoop out (VRef l1) (keys h0 (VRef l1))) stc)
    in *.
  pose proof (inv_touch h0 out _ stc Hinvc Hout Td) as Hinvd. fold std in Hinvd.
  rewrite (keys_stable h0 _ (inv_input _ _ Hinvd) (VRef l2)) in Hrun by done.
  assert (pair_shape h0 std) as Hshd.
  { eapply (pair_shape_tables h0 stc); [done|].
    apply pair_shape_setPair.
    - unfold pair_kept. by rewrite Hplain1, orb_true_r.
    - by eapply pair_shape_tables; [|exact Hsh]. }
  assert (extends st std) as Hextd.
  { eapply extends_alloc_frame; [apply (extends_alloc (OPlain []))|].
    fold sta out.
    eapply frame_trans; [apply (frame_touch out _ sta Tb)|]. fold stb.
    eapply frame_trans; [|apply (frame_touch out _ stc Td)].
    apply frame_tables; [done|]. apply tables_grow_setPair. by subst stb sta. }
  assert (length (st_heap std) = S out) as Hlend.
  { transitivity (length (st_heap stc)); [exact (proj1 Td)|].
    transitivity (length (st_heap sta)); [exact (proj1 Tb)|].
    subst sta out. simpl. rewrite length_app. simpl. lia. }
  apply bind_Some in Hrun as (st2 & Hloop & Hrun). simplify_eq.
  destruct (mergeKeysLoop_ok h0 Hwf rec Hrec out (VRef l1) (VRef l2) _ Hout
              Hl1 Hl2 _ _ _ Hinvd Hnewd Hloop) as (_ & Hfr & _).
  pose proof (mergeKeysLoop_done h0 Hwf mergeArrays rec Hrec Hmemo Hdone out
                (VRef l1) (VRef l2) _ Hout Hl1 Hl2 _ _ _ Hinvd Hshd Hnewd Hloop)
    as Hstep.
  eapply (mergeKeysLoop_memo h0 Hwf rec Hrec Hmemo) in Hloop
    as (Hsh' & vs & Hvs & Hall); [|done..].
  split_and!; [done | done | | by exists vs |].
  - apply (paired_at_grow l1 l2 out stb), Hfr.
  - eapply (pair_entry_done h0 mergeArrays st l1 l2 std);
      [done | done | done | done | exact Hextd | done | done | done
      |exact Hstep |].
    split_and!.
    + intros Hk. congruence.
    + intros Hk. congruence.
    + intros _ _. by exists vs.
Qed.

(** One call leaves its answer in the tables, and enters in [pairMap]
    only the pairs for which it builds an object. *)
Lemma body_memo : call_memo h0 (mergeBody mergeArrays rec).
Proof.
  intros obj1 obj2 st v st' Hinv Hsh H1 H2 Hrun.
  destruct (decide (obj1 = obj2)) as [->|Hne].
  { unfold mergeBody in Hrun. rewrite decide_True in Hrun by done.
    simplify_eq. split; [done | apply memo_same]. }
  destruct (isArray h0 obj2 || isPlainObject h0 obj2) eqn:Hkind.
  2:{ apply orb_false_elim in Hkind as [Ha2 Hp2].
      rewrite (body_return_source h0) in Hrun by done. simplify_eq.
      split; [done | by apply memo_source]. }
  destruct obj2 as [| | | | | |l2]; try done. simpl in H2.
  destruct (isObject obj1) eqn:Ho1.
  - destruct obj1 as [| | | | | |l1]; try done. simpl in H1.
    assert (l1 ≠ l2) as Hne' by congruence.
    destruct (getPair l1 l2 st) as [o|] eqn:Hpair.
    { rewrite (body_pair_hit _ _ _ _ _ _ Hne' Hpair) in Hrun. simplify_eq.
      split; [done|]. apply memo_pair; eauto. }
    destruct (isArray h0 (VRef l2)) eqn:Ha2.
    { eapply body_pair_array_memo in Hrun as (? & -> & ? & _); try done.
      split; [done|]. apply memo_pair; try done.
      + by rewrite Ha2.
      + unfold pair_kept. by rewrite Ha2. }
    rewrite orb_false_l in Hkind.
    destruct (isArray h0 (VRef l1)) eqn:Ha1.
    { eapply body_array_plain_memo in Hrun as (? & -> & ? & _); try done.
      split; [done|]. apply memo_pair; try done.
      + by rewrite Ha2.
      + unfold pair_kept. by rewrite Ha1, orb_true_r. }
    destruct (isPlainObject h0 (VRef l1)) eqn:Hp1.
    { eapply body_plain_plain_memo in Hrun as (? & -> & ? & _); try done.
      split; [done|]. apply memo_pair; try done.
      + by rewrite Ha2.
      + unfold pair_kept. by rewrite Hp1, orb_true_r. }
    rewrite (body_opaque_target h0) in Hrun by done. simplify_eq.
    split; [done|]. apply memo_opaque_target.
    unfold pair_kept. by rewrite Ha2, Ha1, Hp1.
  - rewrite mergeBody_clone in Hrun by done.
    destruct (cloneMap st !! l2) as [c|] eqn:Hclone.
    { rewrite (body_clone_hit _ _ _ _ _ Hclone) in Hrun. simplify_eq.
      split; [done | by apply memo_clone]. }
    destruct (isArray h0 (VRef l2)) eqn:Ha2.
    { eapply body_clone_array_memo in Hrun as (? & -> & ? & _); try done.
      split; [done|]. apply memo_clone; try done. by rewrite Ha2. }
    rewrite orb_false_l in Hkind.
    eapply body_clone_plain_memo in Hrun as (? & -> & ? & _); try done.
    split; [done|]. apply memo_clone; try done. by rewrite Ha2.
Qed.

(** One call fills the objects that it enters in the tables. *)
Lemma body_done : call_done h0 mergeArrays (mergeBody mergeArrays rec).
Proof.
  intros obj1 obj2 st v st' Hinv Hsh H1 H2 Hrun.
  destruct (decide (obj1 = obj2)) as [->|Hne].
  { unfold mergeBody in Hrun. rewrite decide_True in Hrun by done.
    simplify_eq. apply step_done_refl. }
  destruct (isArray h0 obj2 || isPlainObject h0 obj2) eqn:Hkind.
  2:{ apply orb_false_elim in Hkind as [Ha2 Hp2].
      rewrite (body_return_source h0) in Hrun by done. simplify_eq.
      apply step_done_refl. }
  destruct obj2 as [| | | | | |l2]; try done. simpl in H2.
  destruct (isObject obj1) eqn:Ho1.
  - destruct obj1 as [| | | | | |l1]; try done. simpl in H1.
    assert (l1 ≠ l2) as Hne' by congruence.
    destruct (getPair l1 l2 st) as [o|] eqn:Hpair.
    { rewrite (body_pair_hit _ _ _ _ _ _ Hne' Hpair) in Hrun. simplify_eq.
      apply step_done_refl. }
    destruct (isArray h0 (VRef l2)) eqn:Ha2.
    { by eapply body_pair_array_memo in Hrun as (_ & _ & _ & _ & ?). }
    rewrite orb_false_l in Hkind.
    destruct (isArray h0 (VRef l1)) eqn:Ha1.
    { by eapply body_array_plain_memo in Hrun as (_ & _ & _ & _ & ?). }
    destruct (isPlainObject h0 (VRef l1)) eqn:Hp1.
    { by eapply body_plain_plain_memo in Hrun as (_ & _ & _ & _ & ?). }
    rewrite (body_opaque_target h0) in Hrun by done. simplify_eq.
    apply step_done_refl.
  - rewrite mergeBody_clone in Hrun by done.
    destruct (cloneMap st !! l2) as [c|] eqn:Hclone.
    { rewrite (body_clone_hit _ _ _ _ _ Hclone) in Hrun. simplify_eq.
      apply step_done_refl. }
    destruct (isArray h0 (VRef l2)) eqn:Ha2.
    { by eapply body_clone_array_memo in Hrun as (_ & _ & _ & _ & ?). }
    rewrite orb_false_l in Hkind.
    by eapply body_clone_plain_memo in Hrun as (_ & _ & _ & _ & ?).
Qed.
End BodyTables.

Lemma internalDeepMerge_tables h0 mergeArrays fuel :
  wf_heap h0 →
  call_memo h0 (internalDeepMerge mergeArrays fuel) ∧
  call_done h0 mergeArrays (internalDeepMerge mergeArrays fuel).
Proof.
  intros Hwf. induction fuel as [|fuel [IHm IHd]]; simpl.
  - split; intros ? ? ? ? ? _ _ _ _ ?; done.
  - pose proof (internalDeepMerge_ok h0 Hwf mergeArrays fuel) as Hok.
    split; [by apply body_memo | by apply body_done].
Qed.

Lemma pair_shape_init h0 h : pair_shape h0 (mkState h ∅ ∅).
Proof. intros a b o. unfold getPair. simpl. by rewrite lookup_empty. Qed.

Lemma tables_done_init h0 mergeArrays h :
  tables_done h0 mergeArrays [] (mkState h ∅ ∅).
Proof.
  split.
  - intros l c E. simpl in E. by rewrite lookup_empty in E.
  - intros a b c E. unfold getPair in E. simpl in E.
    by rewrite lookup_empty in E.
Qed.

(** What holds when the call on the roots has returned. *)
Lemma roots_done mergeArrays fuel h x1 x2 v st :
  wf_heap h → val_closed (length h) x1 → val_closed (length h) x2 →
  internalDeepMerge mergeArrays fuel x1 x2 (mkState h ∅ ∅) = Some (v, st) →
  inv h st ∧ memo h x1 x2 st v ∧ tables_done h mergeArrays [] st ∧
  clones_inj st ∧
  length (st_heap st) ≤ length h + (length h + length h * length h).
Proof.
  intros Hwf H1 H2 Hrun.
  destruct (internalDeepMerge_tables h mergeArrays fuel Hwf) as [Hmemo Hdone].
  destruct (internalDeepMerge_ok h Hwf mergeArrays fuel _ _ _ _ _
              (inv_init h) H1 H2 Hrun) as [Hinv _].
  destruct (Hmemo _ _ _ _ _ (inv_init h) (pair_shape_init h h) H1 H2 Hrun)
    as [_ Hm].
  destruct (Hdone _ _ _ _ _ (inv_init h) (pair_shape_init h h) H1 H2 Hrun)
    as (_ & Hd & Hi & Hn).
  split_and!; [done | done | | |].
  - apply Hd; [done | apply tables_done_init].
  - apply Hi. intros l l' c E. simpl in E. by rewrite lookup_empty in E.
  - rewrite unmarked_init in Hn. simpl in Hn. lia.
Qed.



(** ** Copies to every depth *)



(** ** The clone of a root *)








(** ** The merge rule at every depth *)









(** ** How much the call allocates *)

(** X12.  The tables bound the size of the result: a call on a heap of [n]
    objects, with at least one object root, allocates at most [n + n * n]
    objects, as many as [cloneMap] and [pairMap] can take entries, however
    often the input shares its nodes; and the heap only grows. *)
Theorem allocation_bound mergeArrays fuel h target source :
  wf_heap h →
  val_closed (length h) target → val_closed (length h) source →
  isObject target || isObject source = true →
  length h + length h * length h < fuel →
  ∃ v h',
    deepMerge mergeArrays fuel target source h = Some (v, h') ∧
    length h ≤ length h' ≤ length h + (length h + length h * length h).
Proof.
  intros Hwf Ht Hs Hobj Hfuel.
  destruct (deepMerge_returns mergeArrays h Hwf target source Ht Hs
              fuel Hfuel) as (v & h' & Hrun).
  exists v, h'. split; [done|].
  rewrite deepMerge_unfold in Hrun.
  assert (negb (isObject target) && negb (isObject source) = false) as Hroots
    by (by destruct (isObject target), (isObject source)).
  rewrite Hroots in Hrun.
  apply bind_Some in Hrun as ([v' st] & Hrun & ?). simplify_eq.
  eapply roots_done in Hrun as (Hinv & _ & _ & _ & Hlen); [|done| |].
  - split; [apply (inv_len _ _ Hinv) | done].
  - by destruct (isObject target && isObject source).
  - by destruct (isObject source).
Qed.

Lemma allocation_bound_witness :
  ∃ v h',
    deepMerge true 13 (VRef 0) (VRef 1) Examples.mutual_heap = Some (v, h') ∧
    length Examples.mutual_heap ≤ length h'
    ≤ length Examples.mutual_heap
      + (length Examples.mutual_heap
         + length Examples.mutual_heap * length Examples.mutual_heap).
Proof.
  apply (allocation_bound true 13 Examples.mutual_heap (VRef 0) (VRef 1)).
  - solve_decidable.
  - simpl; lia.
  - simpl; lia.
  - reflexivity.
  - simpl; lia.
Defined.

(** ** The option and the clone *)

Lemma pushLoop_ext rec rec' newArr src n :
  (∀ x st, rec VUndefined x st = rec' VUndefined x st) →
  ∀ i st, pushLoop rec newArr src i n st = pushLoop rec' newArr src i n st.
Proof.
  intros Hext. induction n as [|n IH]; intros i st; simpl; [done|].
  rewrite Hext. destruct (rec' VUndefined _ st) as [[v st1]|]; [apply IH|done].
Qed.

Lemma cloneKeysLoop_ext rec rec' result src ks :
  (∀ x st, rec VUndefined x st = rec' VUndefined x st) →
  ∀ st, cloneKeysLoop rec result src ks st
        = cloneKeysLoop rec' result src ks st.
Proof.
  intros Hext. induction ks as [|k ks IH]; intros st; simpl; [done|].
  rewrite Hext. destruct (rec' VUndefined _ st) as [[v st1]|]; [apply IH|done].
Qed.

Lemma clone_ignores_option fuel x st :
  internalDeepMerge true fuel VUndefined x st
  = internalDeepMerge false fuel VUndefined x st.
Proof.
  revert x st. induction fuel as [|fuel IH]; intros x st; [done|].
  cbn [internalDeepMerge]. unfold mergeBody.
  destruct (decide (VUndefined = x)); [done|].
  destruct x as [| | | | | |l2]; try done.
  destruct (cloneMap st !! l2); [done|].
  destruct (isArray (st_heap st) (VRef l2)).
  - cbn [alloc]. by rewrite (pushLoop_ext _ _ _ _ _ IH).
  - destruct (isPlainObject (st_heap st) (VRef l2)); [|done].
    cbn [alloc]. by rewrite (cloneKeysLoop_ext _ _ _ _ _ IH).
Qed.

(** X13.  The option [mergeArrays] has no effect on a clone: when one of
    the roots is not an object, the call returns the same result and the
    same heap with the option set and unset. *)
Theorem option_irrelevant_without_pair fuel h x y :
  isObject x = false →
  deepMerge true fuel x y h = deepMerge false fuel x y h ∧
  deepMerge true fuel y x h = deepMerge false fuel y x h.
Proof.
  intros Hx. rewrite !deepMerge_unfold, Hx.
  cbn [negb andb]. rewrite andb_false_r.
  by rewrite !clone_ignores_option.
Qed.

Lemma option_irrelevant_without_pair_witness :
  deepMerge true 13 VNull (VRef 2) Examples.mutual_heap
  = deepMerge false 13 VNull (VRef 2) Examples.mutual_heap ∧
  deepMerge true 13 (VRef 2) VNull Examples.mutual_heap
  = deepMerge false 13 (VRef 2) VNull Examples.mutual_heap.
Proof.
  apply (option_irrelevant_without_pair 13 Examples.mutual_heap VNull (VRef 2)).
  reflexivity.
Defined.
